(** * Shallow embedding of pytogo's [portforward] package

    The Go package keeps a process-wide map [activeForwards] from the key
    ["namespace/podOrService"] to the stop channel of the running tunnel,
    guarded by one mutex.  [Forward] sequences the Kubernetes collaborators
    (config loading, clientset lookups, SPDY dialer, client-go's
    [portforward.New]) and then launches two goroutines, registers the stop
    channel and attaches a signal listener.

    Channels are modelled by identifiers ([chan]); closing a channel appends
    it to [closed_log], and closing an already closed channel is a Go panic
    ([Panicked]).  The collaborators from client-go are parameters (record
    [Env]); their outcomes are arbitrary. *)

From Stdlib Require Import String Ascii ZArith List Lia.
From stdpp Require Import base gmap strings list pretty.

Import ListNotations.
Open Scope string_scope.

(* ------------------------------------------------------------------ *)
(** ** Go values *)

(** A channel ([chan struct{}]) is identified by the order of its [make]. *)
Abbreviation chan := nat (only parsing).

(** Go [error] values: those produced by collaborators, and those built by
    [errors.New] in this package. *)
Inductive error :=
| CollabError (id : nat) (msg : string)
| NewError (msg : string).

(** [err.Error()] *)
Definition Error (e : error) : string :=
  match e with CollabError _ m => m | NewError m => m end.

(** A Go [(T, error)] pair where exactly one side is meaningful. *)
Inductive result (A : Type) :=
| Ok (a : A)
| Err (e : error).
Arguments Ok {A} a.
Arguments Err {A} e.

(** Background goroutines started by [startForward]. *)
Inductive task :=
| MonitorTask (readyChan : chan) (level : Z)
| ForwardLoopTask (stopChan : chan).

(** The observable process state. *)
Record World := mkWorld {
  activeForwards : gmap string chan;
  closed_log : list chan;          (** channels closed, most recent first *)
  errorHandlers : list nat;        (** k8s [runtime.ErrorHandlers] *)
  tasks : list task;               (** goroutines started, most recent first *)
  listeners : list (string * string); (** [closeOnSigterm] goroutines *)
  next_chan : chan                 (** identifier of the next [make(chan)] *)
}.

Definition set_active (m : gmap string chan) (w : World) : World :=
  mkWorld m (closed_log w) (errorHandlers w) (tasks w) (listeners w) (next_chan w).
Definition set_closed (l : list chan) (w : World) : World :=
  mkWorld (activeForwards w) l (errorHandlers w) (tasks w) (listeners w) (next_chan w).
Definition set_handlers (h : list nat) (w : World) : World :=
  mkWorld (activeForwards w) (closed_log w) h (tasks w) (listeners w) (next_chan w).
Definition set_tasks (t : list task) (w : World) : World :=
  mkWorld (activeForwards w) (closed_log w) (errorHandlers w) t (listeners w) (next_chan w).
Definition set_listeners (l : list (string * string)) (w : World) : World :=
  mkWorld (activeForwards w) (closed_log w) (errorHandlers w) (tasks w) l (next_chan w).
Definition set_next (c : chan) (w : World) : World :=
  mkWorld (activeForwards w) (closed_log w) (errorHandlers w) (tasks w) (listeners w) c.

Definition initial_world : World := mkWorld ∅ [] [0%nat] [] [] 0%nat.

(* ------------------------------------------------------------------ *)
(** ** A state monad with Go panics *)

Inductive outcome (A : Type) :=
| Done (a : A) (w : World)
| Panicked (w : World).
Arguments Done {A} a w.
Arguments Panicked {A} w.

Definition M (A : Type) : Type := World -> outcome A.

Definition ret {A} (a : A) : M A := fun w => Done a w.
Definition bind {A B} (m : M A) (k : A -> M B) : M B :=
  fun w => match m w with Done a w' => k a w' | Panicked w' => Panicked w' end.
Definition modify (f : World -> World) : M unit := fun w => Done tt (f w).
Definition gets {A} (f : World -> A) : M A := fun w => Done (f w) w.

Notation "x <- m ;; k" := (bind m (fun x => k))
  (at level 100, m at next level, right associativity).
Notation "m ;;; k" := (bind m (fun _ => k)) (at level 100, right associativity).

Definition world_of {A} (o : outcome A) : World :=
  match o with Done _ w => w | Panicked w => w end.

(** [make(chan struct{}, 1)] *)
Definition make_chan : M chan :=
  fun w => Done (next_chan w) (set_next (S (next_chan w)) w).

(** [close(c)]: a second close of the same channel panics. *)
Definition close (c : chan) : M unit :=
  fun w => if decide (c ∈ closed_log w) then Panicked w
           else Done tt (set_closed (c :: closed_log w) w).

(* ------------------------------------------------------------------ *)
(** ** Management of open connections *)

(** [fmt.Sprintf("%s/%s", namespace, podOrService)] *)
Definition forward_key (namespace podOrService : string) : string :=
  namespace +:+ "/" +:+ podOrService.

(** [registerForwarding]: the mutex makes the body one atomic step. *)
Definition registerForwarding (namespace podOrService : string) (stopCh : chan) : M unit :=
  let key := forward_key namespace podOrService in
  m <- gets activeForwards ;;
  (match m !! key with Some otherCh => close otherCh | None => ret tt end) ;;;
  modify (fun w => set_active (<[key := stopCh]> (activeForwards w)) w).

(** [StopForwarding] *)
Definition StopForwarding (namespace podOrService : string) : M unit :=
  let key := forward_key namespace podOrService in
  m <- gets activeForwards ;;
  match m !! key with
  | Some otherCh =>
      close otherCh ;;;
      modify (fun w => set_active (delete key (activeForwards w)) w)
  | None => ret tt
  end.

(** Sequences of registry operations (the only callers of the registry). *)
Inductive reg_op :=
| RegOp (namespace podOrService : string) (stopCh : chan)
| StopOp (namespace podOrService : string).

Definition run_op (o : reg_op) : M unit :=
  match o with
  | RegOp ns n c => registerForwarding ns n c
  | StopOp ns n => StopForwarding ns n
  end.

Fixpoint run_ops (os : list reg_op) : M unit :=
  match os with
  | [] => ret tt
  | o :: os' => run_op o ;;; run_ops os'
  end.

(** [N] sequential [registerForwarding] calls on one key. *)
Fixpoint register_all (namespace podOrService : string) (hs : list chan) : M unit :=
  match hs with
  | [] => ret tt
  | h :: hs' => registerForwarding namespace podOrService h ;;; register_all namespace podOrService hs'
  end.

Definition reg_handles (os : list reg_op) : list chan :=
  flat_map (fun o => match o with RegOp _ _ c => [c] | StopOp _ _ => [] end) os.

Example register_twice_ex :
  match register_all "test" "web" [1%nat; 2%nat] initial_world with
  | Done _ w => activeForwards w !! "test/web" = Some 2%nat /\ closed_log w = [1%nat]
  | Panicked _ => False
  end.
Proof. vm_compute. split; reflexivity. Qed.

(* ------------------------------------------------------------------ *)
(** ** Go's [strings] functions used by the package *)

(** [strings.Contains(s, substr)] *)
Fixpoint Contains (s substr : string) : bool :=
  String.prefix substr s ||
  match s with
  | EmptyString => false
  | String _ s' => Contains s' substr
  end.

Fixpoint in_cutset (c : ascii) (cutset : string) : bool :=
  match cutset with
  | EmptyString => false
  | String d r => Ascii.eqb c d || in_cutset c r
  end.

(** [strings.TrimLeft(s, cutset)]: drops every leading byte that occurs in
    [cutset] (a set of bytes, not a prefix). *)
Fixpoint TrimLeft (s cutset : string) : string :=
  match s with
  | EmptyString => EmptyString
  | String c s' => if in_cutset c cutset then TrimLeft s' cutset else s
  end.

Fixpoint split_once (s : string) (sep : ascii) : option (string * string) :=
  match s with
  | EmptyString => None
  | String c s' =>
      if Ascii.eqb c sep then Some (EmptyString, s')
      else match split_once s' sep with
           | Some (a, b) => Some (String c a, b)
           | None => None
           end
  end.

(** [strings.SplitN(s, sep, 2)] for a one-byte separator. *)
Definition SplitN2 (s : string) (sep : ascii) : list string :=
  match split_once s sep with
  | Some (a, b) => [a; b]
  | None => [s]
  end.

(* ------------------------------------------------------------------ *)
(** ** logger *)

Module Level.
Definition Debug : Z := 0.
Definition Info : Z := 1.
Definition Warn : Z := 2.
Definition Error : Z := 3.
Definition Off : Z := 4.
End Level.

Record logger := { level : Z }.

Definition newLogger (l : Z) : logger := {| level := l |}.

(** [logger.Debug]: the lines printed to stdout. *)
Definition logger_Debug (l : logger) (msg : string) : list string :=
  if (Level.Debug <? level l)%Z then [] else ["DEBUG: " +:+ msg].

Definition isOff (l : logger) : bool := (level l =? Level.Off)%Z.

(** [overwriteLog]: with level [Off], k8s' [runtime.ErrorHandlers] is
    replaced by an empty slice. *)
Definition overwriteLog (log : logger) : M unit :=
  if negb (isOff log) then ret tt
  else modify (set_handlers []).

(* ------------------------------------------------------------------ *)
(** ** Collaborators (client-go) *)

Record Config := { Host : string }.

Record URL := { URL_Scheme : string; URL_Host : string; URL_Path : string }.

(** [spdy.NewDialer(upgrader, client, POST, &serverURL)] *)
Record Dialer := { dialer_url : URL }.

(** The outcomes of the client-go calls.  [None] stands for a nil error. *)
Record Env := {
  (** [clientcmd....ClientConfig()] for an explicit path and context *)
  env_ClientConfig : string -> string -> result Config;
  (** [kubernetes.NewForConfig(config)] *)
  env_NewForConfig : Config -> option error;
  (** [clientset.CoreV1().Services(namespace).Get(name)] *)
  env_GetService : Config -> string -> string -> option error;
  (** [clientset.CoreV1().Pods(namespace).Get(name)] *)
  env_GetPod : Config -> string -> string -> option error;
  (** [spdy.RoundTripperFor(config)] *)
  env_RoundTripperFor : Config -> option error;
  (** [portforward.New(dialer, ports, ...)] *)
  env_PortforwardNew : Dialer -> list string -> option error
}.

Section Port_forwarding.
Variable env : Env.

(** [loadConfig] *)
Definition loadConfig (kubeconfigPath kubeContext : string) (log : logger) : result Config :=
  env_ClientConfig env kubeconfigPath kubeContext.

(** [prepareForward] *)
Definition prepareForward (config : Config) (namespace podOrService : string) : result string :=
  match env_NewForConfig env config with
  | Some err => Err err
  | None =>
    match env_GetService env config namespace podOrService with
    | None => Ok "services"
    | Some err =>
      if negb (Contains (Error err) "not found") then Err err
      else
        match env_GetPod env config namespace podOrService with
        | None => Ok "pods"
        | Some err =>
          if negb (Contains (Error err) "not found") then Err err
          else Err (NewError ("no service or pod with name " +:+ podOrService +:+ " found"))
        end
    end
  end.

(** [newDialer] *)
Definition newDialer (config : Config) (namespace resType podOrService : string) : result Dialer :=
  match env_RoundTripperFor env config with
  | Some err => Err err
  | None =>
    let path := "/api/v1/namespaces/" +:+ namespace +:+ "/" +:+ resType +:+ "/"
                +:+ podOrService +:+ "/portforward" in
    let hostIP := TrimLeft (Host config) "https://" in
    let '(hostIP, path) :=
      match SplitN2 hostIP "/"%char with
      | [p0; p1] => (p0, "/" +:+ p1 +:+ path)
      | _ => (hostIP, path)
      end in
    Ok {| dialer_url := {| URL_Scheme := "https"; URL_Host := hostIP; URL_Path := path |} |}
  end.

(** [startForward]: the two goroutines are started only after
    [portforward.New] succeeded. *)
Definition startForward (dialer : Dialer) (ports : string) (stopChan readyChan : chan)
    (log : logger) : M (option error) :=
  match env_PortforwardNew env dialer [ports] with
  | Some err => ret (Some err)
  | None =>
    modify (fun w => set_tasks (MonitorTask readyChan (level log) :: tasks w) w) ;;;
    modify (fun w => set_tasks (ForwardLoopTask stopChan :: tasks w) w) ;;;
    ret None
  end.

(** [closeOnSigterm]: attaches one listener goroutine. *)
Definition closeOnSigterm (namespace qualifiedName : string) : M unit :=
  modify (fun w => set_listeners ((namespace, qualifiedName) :: listeners w) w).

(** [Forward] *)
Definition Forward (namespace podOrService : string) (fromPort toPort : Z)
    (configPath : string) (logLevel : Z) (kubeContext : string) : M (option error) :=
  let log := newLogger logLevel in
  overwriteLog log ;;;
  match loadConfig configPath kubeContext log with
  | Err err => ret (Some err)
  | Ok config =>
    match prepareForward config namespace podOrService with
    | Err err => ret (Some err)
    | Ok resType =>
      match newDialer config namespace resType podOrService with
      | Err err => ret (Some err)
      | Ok dialer =>
        stopChan <- make_chan ;;
        readyChan <- make_chan ;;
        let ports := pretty fromPort +:+ ":" +:+ pretty toPort in
        r <- startForward dialer ports stopChan readyChan log ;;
        match r with
        | Some err => ret (Some err)
        | None =>
          registerForwarding namespace podOrService stopChan ;;;
          closeOnSigterm namespace podOrService ;;;
          ret None
        end
      end
    end
  end.
End Port_forwarding.

(* ------------------------------------------------------------------ *)
(** ** The goroutines started by [startForward] *)

(** What happens to the buffers [out], [errOut] and to [readyChan] after
    the goroutines were started, in the order it happens: the forwarder's
    writes, sends and close, and the points where the monitor goroutine is
    scheduled. *)
Inductive tunnel_event :=
| WriteOut (s : string)
| WriteErrOut (s : string)
| SendReady
| CloseReady
| MonitorRuns.

Inductive monitor_result :=
| MonitorBlocked                 (** not finished: still ranging over [readyChan],
                                     or woken by its close but not yet scheduled *)
| MonitorPanic (msg : string)    (** [panic(errOut.String())] *)
| MonitorDebug (msg : string)    (** [log.Debug(out.String())] *)
| MonitorDone.

(** The body after the [for range readyChan] loop: the buffers are read
    once. *)
Definition inspect (out errOut : string) : monitor_result :=
  if negb (String.length errOut =? 0)%nat then MonitorPanic errOut
  else if negb (String.length out =? 0)%nat then MonitorDebug out
  else MonitorDone.

(** The first goroutine, over the buffers shared with the forwarder: each
    time it is scheduled it drains [readyChan]; the first time it runs after
    [readyChan] was closed it leaves the loop and reads the buffers as they
    are at that moment. *)
Fixpoint monitor (out errOut : string) (readyClosed : bool) (tr : list tunnel_event)
    : monitor_result :=
  match tr with
  | [] => MonitorBlocked
  | WriteOut s :: tr' => monitor (out +:+ s) errOut readyClosed tr'
  | WriteErrOut s :: tr' => monitor out (errOut +:+ s) readyClosed tr'
  | SendReady :: tr' => monitor out errOut readyClosed tr'
  | CloseReady :: tr' => monitor out errOut true tr'
  | MonitorRuns :: tr' =>
      if readyClosed then inspect out errOut else monitor out errOut readyClosed tr'
  end.

(** Error output written by the forwarder over a trace. *)
Fixpoint err_output (tr : list tunnel_event) : string :=
  match tr with
  | [] => EmptyString
  | WriteErrOut s :: tr' => s +:+ err_output tr'
  | _ :: tr' => err_output tr'
  end.

(** The forwarder's own events, without the monitor's scheduling points. *)
Fixpoint strip (tr : list tunnel_event) : list tunnel_event :=
  match tr with
  | [] => []
  | MonitorRuns :: tr' => strip tr'
  | e :: tr' => e :: strip tr'
  end.

(** How client-go's [ForwardPorts] can go, as the forwarder is written:
    upgrading the connection fails (nothing is written); listening on the
    local port fails (it writes "Unable to listen on port ..." to [errOut]
    and returns an error without closing [Ready]); or listening succeeds
    (it writes its "Forwarding from ..." lines to [out], closes [Ready],
    and returns later, nil once [stopChan] is closed). *)
Inductive forward_run :=
| DialFailed (err : error)
| ListenFailed (msg : string) (err : error)
| Listening (outs : list string) (ret : option error).

(** The forwarder's events and what [ForwardPorts] returns. *)
Definition forwarder (r : forward_run) : list tunnel_event * option error :=
  match r with
  | DialFailed err => ([], Some err)
  | ListenFailed msg err => ([WriteErrOut msg], Some err)
  | Listening outs ret => (app (map WriteOut outs) [CloseReady], ret)
  end.

(** The text of the lines written to [out]. *)
Definition concat_outs (outs : list string) : string :=
  fold_right (fun s acc => s +:+ acc) EmptyString outs.

Inductive loop_result :=
| LoopReturned
| LoopPanic (err : error).

(** The second goroutine, given what [forwarder.ForwardPorts()] returned
    (it returns nil once [stopChan] is closed). *)
Definition forward_loop (forwardPorts : option error) : loop_result :=
  match forwardPorts with
  | Some err => LoopPanic err
  | None => LoopReturned
  end.

(* ------------------------------------------------------------------ *)
(** ** The listener started by [closeOnSigterm] *)

Definition SIGINT : Z := 2.
Definition SIGTERM : Z := 15.

(** [signal.Notify(sigs, syscall.SIGINT, syscall.SIGTERM)] *)
Definition notified (signum : Z) : bool := (signum =? SIGINT)%Z || (signum =? SIGTERM)%Z.

(** The goroutine blocked on [<-sigs]; [sigs] has a buffer of one. *)
Inductive lstate :=
| LWaiting (buffered : bool)
| LExited.

Inductive sig_event :=
| Deliver (signum : Z)   (** the OS delivers a signal to the process *)
| Schedule.              (** the listener goroutine is scheduled *)

(** One step; the second component lists the [StopForwarding] calls made. *)
Definition listener_step (key : string * string) (st : lstate) (e : sig_event)
    : lstate * list (string * string) :=
  match e, st with
  | Deliver s, LWaiting _ => (if notified s then LWaiting true else st, [])
  | Deliver _, LExited => (LExited, [])
  | Schedule, LWaiting true => (LExited, [key])
  | Schedule, _ => (st, [])
  end.

Fixpoint run_listener (key : string * string) (st : lstate) (tr : list sig_event)
    : lstate * list (string * string) :=
  match tr with
  | [] => (st, [])
  | e :: tr' =>
      let '(st1, c1) := listener_step key st e in
      let '(st2, c2) := run_listener key st1 tr' in
      (st2, app c1 c2)
  end.

(** The registry effect of the listener's calls. *)
Fixpoint apply_stops (calls : list (string * string)) : M unit :=
  match calls with
  | [] => ret tt
  | (ns, n) :: cs => StopForwarding ns n ;;; apply_stops cs
  end.

(* ------------------------------------------------------------------ *)
(** ** Small evaluations *)

Definition env_ok (host : string) : Env := {|
  env_ClientConfig := fun _ _ => Ok {| Host := host |};
  env_NewForConfig := fun _ => None;
  env_GetService := fun _ _ _ => Some (CollabError 1 "services x not found");
  env_GetPod := fun _ _ _ => None;
  env_RoundTripperFor := fun _ => None;
  env_PortforwardNew := fun _ _ => None
|}.

Example trim_ip : TrimLeft "https://1.2.3.4:6443" "https://" = "1.2.3.4:6443".
Proof. reflexivity. Qed.

Example forward_ok_ex :
  match Forward (env_ok "https://1.2.3.4:6443") "test" "web" 4000 80 "cfg" 0 EmptyString initial_world with
  | Done None w => activeForwards w !! "test/web" = Some 0%nat
                   /\ listeners w = [("test", "web")]
  | _ => False
  end.
Proof. vm_compute. split; reflexivity. Qed.

(* ------------------------------------------------------------------ *)
(** ** Registry invariants *)

Close Scope string_scope.

Definition opt_list {A} (o : option A) : list A :=
  match o with Some x => [x] | None => [] end.

(** Every registered stop channel is still open, no channel was closed
    twice, and a channel is registered under at most one key. *)
Definition Inv (w : World) : Prop :=
  NoDup (closed_log w) /\
  (forall k h, activeForwards w !! k = Some h -> h ∉ closed_log w) /\
  (forall k1 k2 h, activeForwards w !! k1 = Some h -> activeForwards w !! k2 = Some h -> k1 = k2).

(** A channel the registry has already seen. *)
Definition seen (w : World) (h : chan) : Prop :=
  h ∈ closed_log w \/ exists k, activeForwards w !! k = Some h.

Lemma Inv_initial : Inv initial_world.
Proof.
  split; [constructor | split].
  - intros k h H. cbn [activeForwards initial_world] in H. rewrite lookup_empty in H. discriminate.
  - intros k1 k2 h H. cbn [activeForwards initial_world] in H. rewrite lookup_empty in H. discriminate.
Qed.

Lemma registerForwarding_eq ns n h w :
  Inv w ->
  registerForwarding ns n h w =
  Done tt (mkWorld (<[forward_key ns n := h]> (activeForwards w))
                   (opt_list (activeForwards w !! forward_key ns n) ++ closed_log w)
                   (errorHandlers w) (tasks w) (listeners w) (next_chan w)).
Proof.
  intros (_ & Hopen & _).
  unfold registerForwarding, bind, gets, modify.
  destruct (activeForwards w !! forward_key ns n) as [o|] eqn:E; simpl.
  - unfold close. rewrite decide_False; [reflexivity | exact (Hopen _ _ E)].
  - reflexivity.
Qed.

Lemma StopForwarding_eq ns n w :
  Inv w ->
  StopForwarding ns n w =
  Done tt (mkWorld (delete (forward_key ns n) (activeForwards w))
                   (opt_list (activeForwards w !! forward_key ns n) ++ closed_log w)
                   (errorHandlers w) (tasks w) (listeners w) (next_chan w)).
Proof.
  intros (_ & Hopen & _).
  unfold StopForwarding, bind, gets, modify.
  destruct (activeForwards w !! forward_key ns n) as [o|] eqn:E; simpl.
  - unfold close. rewrite decide_False; [reflexivity | exact (Hopen _ _ E)].
  - rewrite delete_id by exact E. destruct w; reflexivity.
Qed.

Lemma register_Inv ns n h w :
  Inv w -> ~ seen w h ->
  Inv (mkWorld (<[forward_key ns n := h]> (activeForwards w))
               (opt_list (activeForwards w !! forward_key ns n) ++ closed_log w)
               (errorHandlers w) (tasks w) (listeners w) (next_chan w)).
Proof.
  intros (Hnd & Hopen & Hinj) Hfresh. unfold Inv. cbn [activeForwards closed_log].
  set (k := forward_key ns n).
  split; [| split].
  - destruct (activeForwards w !! k) as [o|] eqn:E; simpl; [|exact Hnd].
    constructor; [exact (Hopen _ _ E) | exact Hnd].
  - intros k' h' H'. rewrite lookup_insert in H'. case_decide as Hk.
    + injection H' as <-. intros Hin. apply elem_of_app in Hin as [Hin|Hin].
      * destruct (activeForwards w !! k) eqn:E; simpl in Hin; [|set_solver].
        apply list_elem_of_singleton in Hin. subst. apply Hfresh. right. eauto.
      * apply Hfresh. left. exact Hin.
    + intros Hin. apply elem_of_app in Hin as [Hin|Hin].
      * destruct (activeForwards w !! k) as [o|] eqn:E; simpl in Hin; [|set_solver].
        apply list_elem_of_singleton in Hin. subst. apply Hk.
        exact (Hinj _ _ _ E H').
      * exact (Hopen _ _ H' Hin).
  - intros k1 k2 h' H1 H2. rewrite lookup_insert in H1, H2.
    destruct (decide (k = k1)) as [Hk1|Hk1]; destruct (decide (k = k2)) as [Hk2|Hk2].
    + congruence.
    + injection H1 as <-. exfalso. apply Hfresh. right. eauto.
    + injection H2 as <-. exfalso. apply Hfresh. right. eauto.
    + exact (Hinj _ _ _ H1 H2).
Qed.

Lemma register_seen ns n h w x :
  seen (mkWorld (<[forward_key ns n := h]> (activeForwards w))
                (opt_list (activeForwards w !! forward_key ns n) ++ closed_log w)
                (errorHandlers w) (tasks w) (listeners w) (next_chan w)) x ->
  seen w x \/ x = h.
Proof.
  intros [Hin | [k' Hk]]; cbn [activeForwards closed_log] in *.
  - apply elem_of_app in Hin as [Hin|Hin]; [|left; left; exact Hin].
    destruct (activeForwards w !! forward_key ns n) eqn:E; simpl in Hin; [|set_solver].
    apply list_elem_of_singleton in Hin. subst. left. right. eauto.
  - rewrite lookup_insert in Hk. case_decide.
    + injection Hk as <-. right. reflexivity.
    + left. right. eauto.
Qed.

Lemma stop_Inv ns n w :
  Inv w ->
  Inv (mkWorld (delete (forward_key ns n) (activeForwards w))
               (opt_list (activeForwards w !! forward_key ns n) ++ closed_log w)
               (errorHandlers w) (tasks w) (listeners w) (next_chan w)).
Proof.
  intros (Hnd & Hopen & Hinj). unfold Inv. cbn [activeForwards closed_log].
  set (k := forward_key ns n).
  split; [| split].
  - destruct (activeForwards w !! k) as [o|] eqn:E; simpl; [|exact Hnd].
    constructor; [exact (Hopen _ _ E) | exact Hnd].
  - intros k' h' H'. rewrite lookup_delete in H'. case_decide as Hk; [discriminate|].
    intros Hin. apply elem_of_app in Hin as [Hin|Hin].
    + destruct (activeForwards w !! k) as [o|] eqn:E; simpl in Hin; [|set_solver].
      apply list_elem_of_singleton in Hin. subst. apply Hk.
      exact (Hinj _ _ _ E H').
    + exact (Hopen _ _ H' Hin).
  - intros k1 k2 h' H1 H2. rewrite lookup_delete in H1, H2.
    do 2 case_decide; try discriminate. exact (Hinj _ _ _ H1 H2).
Qed.

Lemma stop_seen ns n w x :
  seen (mkWorld (delete (forward_key ns n) (activeForwards w))
                (opt_list (activeForwards w !! forward_key ns n) ++ closed_log w)
                (errorHandlers w) (tasks w) (listeners w) (next_chan w)) x ->
  seen w x.
Proof.
  intros [Hin | [k' Hk]]; cbn [activeForwards closed_log] in *.
  - apply elem_of_app in Hin as [Hin|Hin]; [|left; exact Hin].
    destruct (activeForwards w !! forward_key ns n) eqn:E; simpl in Hin; [|set_solver].
    apply list_elem_of_singleton in Hin. subst. right. eauto.
  - rewrite lookup_delete in Hk. case_decide; [discriminate|]. right. eauto.
Qed.

Lemma StopForwarding_absent ns n w :
  activeForwards w !! forward_key ns n = None -> StopForwarding ns n w = Done tt w.
Proof.
  intros E. unfold StopForwarding, bind, gets. simpl. rewrite E. reflexivity.
Qed.

Lemma fresh_after_register ns n h w (hs : list chan) :
  h ∉ hs -> Forall (fun x => ~ seen w x) hs ->
  Forall (fun x => ~ seen (mkWorld (<[forward_key ns n := h]> (activeForwards w))
                (opt_list (activeForwards w !! forward_key ns n) ++ closed_log w)
                (errorHandlers w) (tasks w) (listeners w) (next_chan w)) x) hs.
Proof.
  intros Hnot Hfr. apply Forall_forall. intros x Hx Hs.
  apply register_seen in Hs as [Hs | ->].
  - exact (proj1 (Forall_forall _ _) Hfr x Hx Hs).
  - exact (Hnot Hx).
Qed.

Lemma register_all_spec ns n (hs : list chan) w :
  Inv w -> NoDup hs -> Forall (fun h => ~ seen w h) hs -> hs <> [] ->
  exists w', register_all ns n hs w = Done tt w' /\ Inv w' /\
    activeForwards w' !! forward_key ns n = last hs /\
    (forall k, k <> forward_key ns n -> activeForwards w' !! k = activeForwards w !! k) /\
    closed_log w' = rev (removelast (opt_list (activeForwards w !! forward_key ns n) ++ hs))
                    ++ closed_log w.
Proof.
  revert w. induction hs as [|h hs IH]; intros w Hinv Hnd Hfr Hne; [congruence|].
  apply NoDup_cons in Hnd as [Hh Hnd]. apply Forall_cons in Hfr as [Hhf Hfr].
  pose proof (register_Inv ns n h w Hinv Hhf) as Hinv1.
  pose proof (fresh_after_register ns n h w hs Hh Hfr) as Hfr1.
  simpl register_all. unfold bind at 1. rewrite registerForwarding_eq by exact Hinv.
  destruct hs as [|h2 hs'].
  - eexists. split; [reflexivity|]. split; [exact Hinv1|]. cbn [activeForwards closed_log last].
    split; [apply lookup_insert_eq|]. split.
    + intros k Hk. apply lookup_insert_ne. congruence.
    + rewrite removelast_app by discriminate. simpl. rewrite app_nil_r.
      destruct (activeForwards w !! forward_key ns n); reflexivity.
  - destruct (IH _ Hinv1 Hnd Hfr1 ltac:(discriminate)) as (w' & Hrun & Hinv' & Hlast & Hother & Hclosed).
    exists w'. split; [exact Hrun|]. split; [exact Hinv'|]. split; [exact Hlast|]. split.
    + intros k Hk. rewrite (Hother k Hk). cbn [activeForwards]. apply lookup_insert_ne. congruence.
    + rewrite Hclosed. cbn [activeForwards closed_log]. rewrite lookup_insert_eq.
      rewrite !removelast_app by discriminate.
      change (removelast (h :: h2 :: hs')) with (h :: removelast (h2 :: hs')).
      destruct (activeForwards w !! forward_key ns n); simpl;
        rewrite <- ?app_assoc; reflexivity.
Qed.

Lemma run_ops_spec (os : list reg_op) w :
  Inv w -> NoDup (reg_handles os) -> Forall (fun h => ~ seen w h) (reg_handles os) ->
  exists w', run_ops os w = Done tt w' /\ Inv w'.
Proof.
  revert w. induction os as [|o os IH]; intros w Hinv Hnd Hfr.
  - exists w. split; [reflexivity | exact Hinv].
  - destruct o as [ns n c | ns n]; simpl run_ops; unfold bind at 1; simpl run_op.
    + simpl in Hnd, Hfr. apply NoDup_cons in Hnd as [Hc Hnd].
      apply Forall_cons in Hfr as [Hcf Hfr].
      rewrite registerForwarding_eq by exact Hinv.
      apply IH; [exact (register_Inv ns n c w Hinv Hcf) | exact Hnd |].
      apply fresh_after_register; assumption.
    + rewrite StopForwarding_eq by exact Hinv.
      apply IH; [exact (stop_Inv ns n w Hinv) | exact Hnd |].
      apply Forall_forall. intros x Hx Hs. apply stop_seen in Hs.
      exact (proj1 (Forall_forall _ _) Hfr x Hx Hs).
Qed.

(** Keys built from namespaces without '/' are injective. *)
Lemma forward_key_inj ns1 n1 ns2 n2 :
  in_cutset "/"%char ns1 = false -> in_cutset "/"%char ns2 = false ->
  forward_key ns1 n1 = forward_key ns2 n2 -> ns1 = ns2 /\ n1 = n2.
Proof.
  unfold forward_key. revert ns2.
  induction ns1 as [|c1 ns1 IH]; intros [|c2 ns2] H1 H2 Heq; simpl in *.
  - split; [reflexivity|]. injection Heq as Heq. exact Heq.
  - injection Heq as Hc _. subst c2. simpl in H2. discriminate.
  - injection Heq as Hc _. subst c1. simpl in H1. discriminate.
  - apply orb_false_iff in H1 as [_ H1]. apply orb_false_iff in H2 as [_ H2].
    injection Heq as <- Heq. destruct (IH ns2 H1 H2 Heq) as [-> ->]. split; reflexivity.
Qed.

Definition op_pair (o : reg_op) : string * string :=
  match o with RegOp ns n _ => (ns, n) | StopOp ns n => (ns, n) end.

(* ================================================================== *)
(** * Claims *)

(** C1 (at-most-one-per-key, replace-tears-down-prior): after [N >= 1]
    sequential [registerForwarding] calls with fresh stop channels [hs] on
    one key, the last channel is the key's entry and is still open, and
    every channel registered before it under that key (including an entry
    present before the calls) has been closed exactly once; nothing else was
    closed. *)
Theorem register_replaces_prior (w : World) (ns n : string) (hs : list chan)
    (Hinv : Inv w) (Hnd : NoDup hs) (Hfresh : Forall (fun h => ~ seen w h) hs)
    (Hne : hs <> []) :
  let prior := removelast (opt_list (activeForwards w !! forward_key ns n) ++ hs) in
  exists w', register_all ns n hs w = Done tt w' /\
    activeForwards w' !! forward_key ns n = last hs /\
    (forall h, last hs = Some h -> h ∉ closed_log w') /\
    (forall h, In h prior -> count_occ Nat.eq_dec (closed_log w') h = 1) /\
    closed_log w' = rev prior ++ closed_log w.
Proof.
  intros prior.
  destruct (register_all_spec ns n hs w Hinv Hnd Hfresh Hne)
    as (w' & Hrun & Hinv' & Hlast & _ & Hclosed).
  exists w'. split; [exact Hrun|]. split; [exact Hlast|]. split; [|split].
  - intros h Hh. rewrite <- Hlast in Hh. exact (proj1 (proj2 Hinv') _ _ Hh).
  - intros h Hin. apply (proj1 (NoDup_count_occ' Nat.eq_dec _) (proj1 (NoDup_ListNoDup _) (proj1 Hinv'))).
    rewrite Hclosed. apply in_or_app. left. apply in_rev. rewrite rev_involutive. exact Hin.
  - exact Hclosed.
Qed.

Lemma register_replaces_prior_witness :
  Inv initial_world /\ NoDup [1%nat; 2%nat] /\
  Forall (fun h => ~ seen initial_world h) [1%nat; 2%nat] /\ [1%nat; 2%nat] <> [] /\
  let prior := removelast (opt_list (activeForwards initial_world !! forward_key "test" "web")
                           ++ [1%nat; 2%nat]) in
  exists w', register_all "test" "web" [1%nat; 2%nat] initial_world = Done tt w' /\
    activeForwards w' !! forward_key "test" "web" = last [1%nat; 2%nat] /\
    (forall h, last [1%nat; 2%nat] = Some h -> h ∉ closed_log w') /\
    (forall h, In h prior -> count_occ Nat.eq_dec (closed_log w') h = 1) /\
    closed_log w' = rev prior ++ closed_log initial_world.
Proof.
  assert (Hnd : NoDup [1%nat; 2%nat]) by (apply (bool_decide_unpack _); vm_compute; reflexivity).
  assert (Hfr : Forall (fun h => ~ seen initial_world h) [1%nat; 2%nat]).
  { repeat constructor; intros [Hin | [k Hk]]; cbn in *;
      try (rewrite lookup_empty in Hk; discriminate); inversion Hin. }
  split; [exact Inv_initial|]. split; [exact Hnd|]. split; [exact Hfr|].
  split; [discriminate|].
  exact (register_replaces_prior initial_world "test" "web" [1%nat; 2%nat]
           Inv_initial Hnd Hfr ltac:(discriminate)).
Defined.

(** C2 (idempotent stop, no double close): for every sequence of
    [registerForwarding]/[StopForwarding] calls whose registered stop
    channels are fresh (as [Forward] makes them), nothing panics and no
    channel is closed twice; [StopForwarding] on an absent key is a no-op,
    and two [StopForwarding] calls in a row close at most the one channel
    that was registered. *)
Theorem stop_idempotent (w0 : World) (os : list reg_op) (ns n : string)
    (Hinv : Inv w0) (Hnd : NoDup (reg_handles os))
    (Hfresh : Forall (fun h => ~ seen w0 h) (reg_handles os)) :
  exists w, run_ops os w0 = Done tt w /\ NoDup (closed_log w) /\
    (activeForwards w !! forward_key ns n = None -> StopForwarding ns n w = Done tt w) /\
    exists w1, StopForwarding ns n w = Done tt w1 /\ StopForwarding ns n w1 = Done tt w1 /\
      closed_log w1 = opt_list (activeForwards w !! forward_key ns n) ++ closed_log w.
Proof.
  destruct (run_ops_spec os w0 Hinv Hnd Hfresh) as (w & Hrun & Hinvw).
  exists w. split; [exact Hrun|]. split; [exact (proj1 Hinvw)|]. split.
  - apply StopForwarding_absent.
  - eexists. split; [apply StopForwarding_eq; exact Hinvw|]. split.
    + apply StopForwarding_absent. cbn [activeForwards]. apply lookup_delete_eq.
    + reflexivity.
Qed.

Lemma stop_idempotent_witness :
  Inv initial_world /\
  NoDup (reg_handles [RegOp "test" "web" 1; StopOp "test" "web"; RegOp "test" "web" 2]) /\
  exists w, run_ops [RegOp "test" "web" 1; StopOp "test" "web"; RegOp "test" "web" 2]
              initial_world = Done tt w /\ NoDup (closed_log w) /\
    (activeForwards w !! forward_key "test" "web" = None ->
       StopForwarding "test" "web" w = Done tt w) /\
    exists w1, StopForwarding "test" "web" w = Done tt w1 /\
      StopForwarding "test" "web" w1 = Done tt w1 /\
      closed_log w1 = opt_list (activeForwards w !! forward_key "test" "web") ++ closed_log w.
Proof.
  assert (Hnd : NoDup (reg_handles [RegOp "test" "web" 1; StopOp "test" "web"; RegOp "test" "web" 2]))
    by (apply (bool_decide_unpack _); vm_compute; reflexivity).
  split; [exact Inv_initial|]. split; [exact Hnd|].
  apply (stop_idempotent initial_world _ "test" "web" Inv_initial Hnd).
  simpl. repeat constructor; intros [Hin | [k Hk]]; cbn in *;
    try (rewrite lookup_empty in Hk; discriminate); inversion Hin.
Defined.

(** C3 (code_bug): [newDialer] strips the scheme with [strings.TrimLeft],
    which removes every leading byte among [h t p s : /].  For the host
    ["https://1.2.3.4:6443"] the host segment is ["1.2.3.4:6443"], but for
    ["https://proxy.example/api/clusters/c1"] the leading 'p' of ["proxy"]
    is dropped as well: the host segment is ["roxy.example"] (the path
    prefix is placed before the standard path as intended). *)
Theorem newDialer_host_segment (env : Env)
    (Hrt : forall config, env_RoundTripperFor env config = None) :
  newDialer env {| Host := "https://1.2.3.4:6443" |} "test" "pods" "web" =
    Ok {| dialer_url := {| URL_Scheme := "https"; URL_Host := "1.2.3.4:6443";
                           URL_Path := "/api/v1/namespaces/test/pods/web/portforward" |} |} /\
  newDialer env {| Host := "https://proxy.example/api/clusters/c1" |} "test" "pods" "web" =
    Ok {| dialer_url := {| URL_Scheme := "https"; URL_Host := "roxy.example";
           URL_Path := "/api/clusters/c1/api/v1/namespaces/test/pods/web/portforward" |} |}.
Proof.
  unfold newDialer. rewrite !Hrt. split; reflexivity.
Qed.

Lemma newDialer_host_segment_witness :
  (forall config, env_RoundTripperFor (env_ok "https://proxy.example/api/clusters/c1") config = None) /\
  newDialer (env_ok "https://proxy.example/api/clusters/c1")
    {| Host := "https://proxy.example/api/clusters/c1" |} "test" "pods" "web" =
    Ok {| dialer_url := {| URL_Scheme := "https"; URL_Host := "roxy.example";
           URL_Path := "/api/clusters/c1/api/v1/namespaces/test/pods/web/portforward" |} |}.
Proof.
  assert (Hrt : forall config,
            env_RoundTripperFor (env_ok "https://proxy.example/api/clusters/c1") config = None)
    by (intros; reflexivity).
  split; [exact Hrt|].
  exact (proj2 (newDialer_host_segment _ Hrt)).
Defined.

(** C4 (resolution precedence): once the clientset is built, a service
    that exists yields ["services"] whatever the pod lookup would return;
    when both lookups fail with "not found" errors the result is the
    synthesized error ["no service or pod with name <name> found"], which
    for ["ghost"] contains ["no service or pod with name ghost found"]. *)
Theorem prepareForward_precedence (env : Env) (config : Config) (namespace name : string)
    (Hcs : env_NewForConfig env config = None) :
  (env_GetService env config namespace name = None ->
     forall pod : option error,
       prepareForward {| env_ClientConfig := env_ClientConfig env;
                         env_NewForConfig := env_NewForConfig env;
                         env_GetService := env_GetService env;
                         env_GetPod := fun _ _ _ => pod;
                         env_RoundTripperFor := env_RoundTripperFor env;
                         env_PortforwardNew := env_PortforwardNew env |}
                      config namespace name = Ok "services"%string) /\
  (forall e1 e2, env_GetService env config namespace name = Some e1 ->
     Contains (Error e1) "not found" = true ->
     env_GetPod env config namespace name = Some e2 ->
     Contains (Error e2) "not found" = true ->
     prepareForward env config namespace name =
       Err (NewError ("no service or pod with name " +:+ name +:+ " found")) /\
     (name = "ghost"%string ->
        Contains (Error (NewError ("no service or pod with name " +:+ name +:+ " found")))
                 "no service or pod with name ghost found" = true)).
Proof.
  split.
  - intros Hs pod. unfold prepareForward. simpl. rewrite Hcs, Hs. reflexivity.
  - intros e1 e2 Hs Hnf1 Hp Hnf2. split.
    + unfold prepareForward. rewrite Hcs, Hs, Hnf1. simpl. rewrite Hp, Hnf2. reflexivity.
    + intros ->. reflexivity.
Qed.

Definition env_ghost : Env := {|
  env_ClientConfig := fun _ _ => Ok {| Host := "https://1.2.3.4:6443" |};
  env_NewForConfig := fun _ => None;
  env_GetService := fun _ _ _ => Some (CollabError 1 "services ghost not found");
  env_GetPod := fun _ _ _ => Some (CollabError 2 "pods ghost not found");
  env_RoundTripperFor := fun _ => None;
  env_PortforwardNew := fun _ _ => None
|}.

Lemma prepareForward_precedence_witness :
  env_NewForConfig env_ghost {| Host := "https://1.2.3.4:6443" |} = None /\
  prepareForward env_ghost {| Host := "https://1.2.3.4:6443" |} "test" "ghost" =
    Err (NewError ("no service or pod with name " +:+ "ghost" +:+ " found")).
Proof.
  split; [reflexivity|].
  refine (proj1 (proj2 (prepareForward_precedence env_ghost {| Host := "https://1.2.3.4:6443" |}
                          "test" "ghost" eq_refl) _ _ eq_refl _ eq_refl _));
    reflexivity.
Defined.

(* ------------------------------------------------------------------ *)
(** ** [Forward], step by step *)

Definition after_overwriteLog (logLevel : Z) (w : World) : World :=
  if isOff (newLogger logLevel) then set_handlers [] w else w.

Lemma overwriteLog_eq l w :
  overwriteLog (newLogger l) w = Done tt (after_overwriteLog l w).
Proof.
  unfold overwriteLog, after_overwriteLog. destruct (isOff (newLogger l)); reflexivity.
Qed.

Definition ports_of (fromPort toPort : Z) : string :=
  (pretty fromPort +:+ ":" +:+ pretty toPort)%string.

(** The world after the goroutines of [startForward] were launched. *)
Definition launched (logLevel : Z) (w : World) : World :=
  set_tasks (ForwardLoopTask (next_chan w) :: MonitorTask (S (next_chan w)) logLevel :: tasks w)
            (set_next (S (S (next_chan w))) w).

Lemma Forward_eq env ns name fp tp path lvl ctx w :
  let w0 := after_overwriteLog lvl w in
  Forward env ns name fp tp path lvl ctx w =
  match env_ClientConfig env path ctx with
  | Err e => Done (Some e) w0
  | Ok config =>
    match prepareForward env config ns name with
    | Err e => Done (Some e) w0
    | Ok resType =>
      match newDialer env config ns resType name with
      | Err e => Done (Some e) w0
      | Ok dialer =>
        match env_PortforwardNew env dialer [ports_of fp tp] with
        | Some e => Done (Some e) (set_next (S (S (next_chan w0))) w0)
        | None =>
          match registerForwarding ns name (next_chan w0) (launched lvl w0) with
          | Done _ w3 => Done None (set_listeners ((ns, name) :: listeners w3) w3)
          | Panicked w3 => Panicked w3
          end
        end
      end
    end
  end.
Proof.
  intros w0. unfold Forward. unfold bind at 1. rewrite overwriteLog_eq. fold w0.
  unfold loadConfig.
  destruct (env_ClientConfig env path ctx) as [config|e]; [|reflexivity].
  destruct (prepareForward env config ns name) as [resType|e]; [|reflexivity].
  destruct (newDialer env config ns resType name) as [dialer|e]; [|reflexivity].
  unfold bind, make_chan, startForward. cbn [next_chan set_next].
  fold (ports_of fp tp).
  destruct (env_PortforwardNew env dialer [ports_of fp tp]); [reflexivity|].
  unfold modify, ret, launched. cbn.
  unfold set_tasks, set_next. reflexivity.
Qed.

(** Well-formed worlds: the registry invariant, and [next_chan] above every
    channel the registry has seen (channels come from [make]). *)
Definition WF (w : World) : Prop :=
  Inv w /\ forall c, seen w c -> (c < next_chan w)%nat.

Lemma WF_initial : WF initial_world.
Proof.
  split; [exact Inv_initial|]. intros c [Hin | [k Hk]]; cbn in *.
  - inversion Hin.
  - rewrite lookup_empty in Hk. discriminate.
Qed.

Lemma Inv_ext w1 w2 :
  activeForwards w1 = activeForwards w2 -> closed_log w1 = closed_log w2 -> Inv w1 -> Inv w2.
Proof. unfold Inv. intros -> ->. tauto. Qed.

Lemma seen_ext w1 w2 c :
  activeForwards w1 = activeForwards w2 -> closed_log w1 = closed_log w2 -> seen w2 c -> seen w1 c.
Proof. unfold seen. intros -> ->. tauto. Qed.

Lemma after_overwriteLog_proj l w :
  activeForwards (after_overwriteLog l w) = activeForwards w /\
  closed_log (after_overwriteLog l w) = closed_log w /\
  tasks (after_overwriteLog l w) = tasks w /\
  listeners (after_overwriteLog l w) = listeners w /\
  next_chan (after_overwriteLog l w) = next_chan w /\
  errorHandlers (after_overwriteLog l w) = (if (l =? Level.Off)%Z then [] else errorHandlers w).
Proof.
  unfold after_overwriteLog, isOff. simpl. destruct (l =? Level.Off)%Z; repeat split.
Qed.

Lemma registerForwarding_handlers ns n c w :
  errorHandlers (world_of (registerForwarding ns n c w)) = errorHandlers w.
Proof.
  unfold registerForwarding, bind, gets, modify. simpl.
  destruct (activeForwards w !! forward_key ns n); simpl; [|reflexivity].
  unfold close. case_decide; reflexivity.
Qed.

(** C5 (error propagation in resolution): given a loaded config, an error
    of [kubernetes.NewForConfig], or an error of a lookup whose message does
    not contain ["not found"], is returned by [Forward] as the same value; a
    lookup error whose message contains ["not found"] is swallowed: the
    service one falls through to the pod lookup, and the pod one is replaced
    by the synthesized error. *)
Theorem forward_passes_errors (env : Env) (ns name : string) (fp tp : Z) (path : string)
    (lvl : Z) (ctx : string) (w : World) (config : Config)
    (Hcfg : env_ClientConfig env path ctx = Ok config) :
  let w0 := after_overwriteLog lvl w in
  (forall e, env_NewForConfig env config = Some e ->
     Forward env ns name fp tp path lvl ctx w = Done (Some e) w0) /\
  (env_NewForConfig env config = None ->
   forall e, env_GetService env config ns name = Some e ->
     Contains (Error e) "not found" = false ->
     Forward env ns name fp tp path lvl ctx w = Done (Some e) w0) /\
  (env_NewForConfig env config = None ->
   forall e1, env_GetService env config ns name = Some e1 ->
     Contains (Error e1) "not found" = true ->
     (forall e, env_GetPod env config ns name = Some e ->
        Contains (Error e) "not found" = false ->
        Forward env ns name fp tp path lvl ctx w = Done (Some e) w0) /\
     (forall e, env_GetPod env config ns name = Some e ->
        Contains (Error e) "not found" = true ->
        Forward env ns name fp tp path lvl ctx w =
          Done (Some (NewError ("no service or pod with name " +:+ name +:+ " found"))) w0) /\
     (env_GetPod env config ns name = None ->
        prepareForward env config ns name = Ok "pods"%string)).
Proof.
  intros w0. rewrite Forward_eq. fold w0. rewrite Hcfg. unfold prepareForward.
  split; [|split].
  - intros e He. rewrite He. reflexivity.
  - intros Hcs e He Hnf. rewrite Hcs, He, Hnf. reflexivity.
  - intros Hcs e1 He1 Hnf1. rewrite Hcs, He1, Hnf1. simpl. split; [|split].
    + intros e He Hnf. rewrite He, Hnf. reflexivity.
    + intros e He Hnf. rewrite He, Hnf. reflexivity.
    + intros Hp. rewrite Hp. reflexivity.
Qed.

Lemma forward_passes_errors_witness :
  env_ClientConfig env_ghost "cfg" EmptyString = Ok {| Host := "https://1.2.3.4:6443" |} /\
  Forward env_ghost "test" "ghost" 4000 80 "cfg" 0 EmptyString initial_world =
    Done (Some (NewError ("no service or pod with name " +:+ "ghost" +:+ " found")))
         (after_overwriteLog 0 initial_world).
Proof.
  split; [reflexivity|].
  refine (proj1 (proj2 (proj2 (proj2 (forward_passes_errors env_ghost "test" "ghost"
            4000 80 "cfg" 0 EmptyString initial_world {| Host := "https://1.2.3.4:6443" |}
            eq_refl)) eq_refl _ eq_refl eq_refl)) _ eq_refl eq_refl).
Defined.

Lemma launched_proj l w :
  activeForwards (launched l w) = activeForwards w /\
  closed_log (launched l w) = closed_log w /\
  tasks (launched l w) = ForwardLoopTask (next_chan w) :: MonitorTask (S (next_chan w)) l :: tasks w /\
  listeners (launched l w) = listeners w /\
  next_chan (launched l w) = S (S (next_chan w)).
Proof. repeat split. Qed.

(** C6 (all-or-nothing): from a well-formed world, [Forward] never panics;
    when it returns an error the registry, the closed channels, the started
    goroutines and the signal listeners are as before; when it returns nil
    its fresh stop channel is registered (open) under [namespace/name], the
    forward loop and the monitor goroutines were started, one listener was
    attached, and the world is still well-formed.  The config, resolution,
    dialer and [portforward.New] steps fail fast with their own error. *)
Theorem forward_all_or_nothing (env : Env) (ns name : string) (fp tp : Z) (path : string)
    (lvl : Z) (ctx : string) (w : World) (Hwf : WF w) :
  match Forward env ns name fp tp path lvl ctx w with
  | Done (Some _) w' =>
      activeForwards w' = activeForwards w /\ closed_log w' = closed_log w /\
      tasks w' = tasks w /\ listeners w' = listeners w
  | Done None w' =>
      (exists stopChan readyChan,
        activeForwards w' !! forward_key ns name = Some stopChan /\
        (stopChan ∉ closed_log w') /\
        tasks w' = ForwardLoopTask stopChan :: MonitorTask readyChan lvl :: tasks w /\
        listeners w' = (ns, name) :: listeners w /\ WF w')
  | Panicked _ => False
  end /\
  (forall e, env_ClientConfig env path ctx = Err e ->
     (exists w', Forward env ns name fp tp path lvl ctx w = Done (Some e) w')) /\
  (forall config e, env_ClientConfig env path ctx = Ok config ->
     prepareForward env config ns name = Err e ->
     (exists w', Forward env ns name fp tp path lvl ctx w = Done (Some e) w')) /\
  (forall config resType e, env_ClientConfig env path ctx = Ok config ->
     prepareForward env config ns name = Ok resType ->
     newDialer env config ns resType name = Err e ->
     (exists w', Forward env ns name fp tp path lvl ctx w = Done (Some e) w')) /\
  (forall config resType dialer e, env_ClientConfig env path ctx = Ok config ->
     prepareForward env config ns name = Ok resType ->
     newDialer env config ns resType name = Ok dialer ->
     env_PortforwardNew env dialer [ports_of fp tp] = Some e ->
     (exists w', Forward env ns name fp tp path lvl ctx w = Done (Some e) w')).
Proof.
  split; [|split; [|split; [|split]]];
    [| intros e H1 | intros config e H1 H2 | intros config resType e H1 H2 H3
     | intros config resType dialer e H1 H2 H3 H4];
    rewrite Forward_eq;
    [| rewrite H1; eexists; reflexivity
     | rewrite H1, H2; eexists; reflexivity
     | rewrite H1, H2, H3; eexists; reflexivity
     | rewrite H1, H2, H3, H4; eexists; reflexivity].
  set (w0 := after_overwriteLog lvl w).
  destruct (after_overwriteLog_proj lvl w) as (Ha & Hc & Ht & Hl & Hn & _). fold w0 in Ha, Hc, Ht, Hl, Hn.
  destruct (env_ClientConfig env path ctx) as [config|e]; [|tauto].
  destruct (prepareForward env config ns name) as [resType|e]; [|tauto].
  destruct (newDialer env config ns resType name) as [dialer|e]; [|tauto].
  destruct (env_PortforwardNew env dialer [ports_of fp tp]) as [e|].
  { cbn [activeForwards closed_log tasks listeners set_next]. tauto. }
  destruct (launched_proj lvl w0) as (La & Lc & Lt & Ll & Ln).
  assert (HinvL : Inv (launched lvl w0)).
  { apply (Inv_ext w); [congruence | congruence | exact (proj1 Hwf)]. }
  assert (Hfresh : ~ seen (launched lvl w0) (next_chan w0)).
  { intros Hs. apply (seen_ext w) in Hs; [|congruence|congruence].
    pose proof (proj2 Hwf _ Hs). lia. }
  pose proof (register_Inv ns name (next_chan w0) (launched lvl w0) HinvL Hfresh) as Hinv3.
  rewrite (registerForwarding_eq _ _ _ _ HinvL). cbv beta iota.
  exists (next_chan w0), (S (next_chan w0)).
  cbn [set_listeners activeForwards closed_log tasks listeners next_chan errorHandlers].
  split; [apply lookup_insert_eq|]. split.
  { apply (proj1 (proj2 Hinv3) (forward_key ns name)). cbn [activeForwards].
    apply lookup_insert_eq. }
  split; [rewrite Lt, Ht; reflexivity|]. split; [rewrite Ll, Hl; reflexivity|].
  split.
  - eapply Inv_ext; [| | exact Hinv3]; reflexivity.
  - cbn [next_chan]. intros c Hs.
    apply register_seen in Hs as [Hs | ->]; [|unfold set_listeners; cbn [next_chan]; lia].
    apply (seen_ext w) in Hs; [|congruence|congruence].
    pose proof (proj2 Hwf _ Hs). unfold set_listeners; cbn [next_chan]. lia.
Qed.

Lemma forward_all_or_nothing_witness :
  WF initial_world /\
  match Forward (env_ok "https://1.2.3.4:6443") "test" "web" 4000 80 "cfg" 0 EmptyString initial_world with
  | Done (Some _) w' =>
      activeForwards w' = activeForwards initial_world /\ closed_log w' = closed_log initial_world /\
      tasks w' = tasks initial_world /\ listeners w' = listeners initial_world
  | Done None w' =>
      (exists stopChan readyChan,
        activeForwards w' !! forward_key "test" "web" = Some stopChan /\
        (stopChan ∉ closed_log w') /\
        tasks w' = ForwardLoopTask stopChan :: MonitorTask readyChan 0 :: tasks initial_world /\
        listeners w' = ("test", "web") :: listeners initial_world /\ WF w')
  | Panicked _ => False
  end.
Proof.
  split; [exact WF_initial|].
  exact (proj1 (forward_all_or_nothing (env_ok "https://1.2.3.4:6443") "test" "web" 4000 80 "cfg" 0
                  EmptyString initial_world WF_initial)).
Defined.

Fixpoint out_output (tr : list tunnel_event) : string :=
  match tr with
  | [] => EmptyString
  | WriteOut s :: tr' => (s +:+ out_output tr')%string
  | _ :: tr' => out_output tr'
  end.

Lemma string_app_assoc (a b c : string) : ((a +:+ b) +:+ c)%string = (a +:+ (b +:+ c))%string.
Proof. induction a as [|x a IH]; [reflexivity|]. exact (f_equal (String x) IH). Qed.

Lemma string_app_nil_r (a : string) : (a +:+ EmptyString)%string = a.
Proof. induction a as [|x a IH]; [reflexivity|]. exact (f_equal (String x) IH). Qed.

Lemma monitor_open_prefix out errOut (tr1 tr2 : list tunnel_event) :
  Forall (fun e => e <> CloseReady) tr1 ->
  monitor out errOut false (tr1 ++ tr2) =
  monitor (out +:+ out_output tr1)%string (errOut +:+ err_output tr1)%string false tr2.
Proof.
  revert out errOut. induction tr1 as [|e tr1 IH]; intros out errOut Hnc.
  - simpl. rewrite !string_app_nil_r. reflexivity.
  - apply Forall_cons in Hnc as [He Hnc].
    destruct e as [s|s| | |]; simpl; [| | | congruence |]; rewrite IH by exact Hnc;
      rewrite ?string_app_assoc; reflexivity.
Qed.

Lemma monitor_closed_run out errOut (tr2 tr3 : list tunnel_event) :
  Forall (fun e => e <> MonitorRuns) tr2 ->
  monitor out errOut true (tr2 ++ MonitorRuns :: tr3) =
  inspect (out +:+ out_output tr2)%string (errOut +:+ err_output tr2)%string.
Proof.
  revert out errOut. induction tr2 as [|e tr2 IH]; intros out errOut Hnr.
  - simpl. rewrite !string_app_nil_r. reflexivity.
  - apply Forall_cons in Hnr as [He Hnr].
    destruct e as [s|s| | |]; simpl; [| | | | congruence]; rewrite IH by exact Hnr;
      rewrite ?string_app_assoc; reflexivity.
Qed.

Lemma monitor_no_close out errOut (tr : list tunnel_event) :
  Forall (fun e => e <> CloseReady) tr -> monitor out errOut false tr = MonitorBlocked.
Proof.
  revert out errOut. induction tr as [|e tr IH]; intros out errOut Hnc; [reflexivity|].
  apply Forall_cons in Hnc as [He Hnc].
  destruct e; simpl; [apply IH | apply IH | apply IH | congruence | apply IH]; exact Hnc.
Qed.

Lemma strip_cons_runs (tr : list tunnel_event) : strip (MonitorRuns :: tr) = strip tr.
Proof. reflexivity. Qed.

Lemma strip_no_close (tr : list tunnel_event) :
  ~ In CloseReady (strip tr) -> Forall (fun e => e <> CloseReady) tr.
Proof.
  induction tr as [|e tr IH]; intros H; [constructor|].
  destruct e; simpl in H; constructor;
    try discriminate; try (intros E; apply H; left; exact E); apply IH; unfold strip;
    intros Hin; apply H; try right; exact Hin.
Qed.

Lemma err_output_strip (tr : list tunnel_event) : err_output (strip tr) = err_output tr.
Proof.
  induction tr as [|e tr IH]; [reflexivity|].
  destruct e; simpl; rewrite ?IH; reflexivity.
Qed.

Lemma strip_nil_runs (tr : list tunnel_event) :
  strip tr = [] -> tr = [] \/ exists tr', tr = MonitorRuns :: tr'.
Proof.
  destruct tr as [|e tr]; [left; reflexivity|]. intros H. right.
  destruct e; simpl in H; try discriminate. eexists; reflexivity.
Qed.

(** The monitor over any scheduling of a forwarder that listens. *)
Lemma monitor_listening out (outs : list string) (tr : list tunnel_event) :
  strip tr = map WriteOut outs ++ [CloseReady] ->
  (monitor out EmptyString false tr = MonitorBlocked \/
   monitor out EmptyString false tr = inspect (out +:+ concat_outs outs)%string EmptyString) /\
  monitor out EmptyString false (tr ++ [MonitorRuns]) = inspect (out +:+ concat_outs outs)%string EmptyString.
Proof.
  revert out outs. induction tr as [|e tr IH]; intros out outs H.
  - destruct outs; discriminate.
  - destruct e as [s|s| | |]; simpl in H.
    + destruct outs as [|s' outs]; simpl in H; [discriminate|]. injection H as <- H.
      destruct (IH (out +:+ s)%string outs H) as [IH1 IH2]. simpl.
      rewrite string_app_assoc in IH1, IH2. split; [exact IH1 | exact IH2].
    + destruct outs; discriminate.
    + destruct outs; discriminate.
    + destruct outs as [|s' outs]; simpl in H; [|discriminate].
      injection H as H. simpl. rewrite string_app_nil_r.
      destruct (strip_nil_runs tr H) as [-> | [tr' ->]]; simpl.
      * split; [left|]; reflexivity.
      * split; [right|]; reflexivity.
    + simpl. apply IH. exact H.
Qed.

Lemma inspect_no_errOut (out : string) :
  inspect out EmptyString =
  if negb (String.length out =? 0)%nat then MonitorDebug out else MonitorDone.
Proof. reflexivity. Qed.

(** C7 (counterexample): when listening on the local port fails, the
    forwarder writes its error output but never closes [readyChan]; under
    every scheduling the monitor stays in its loop and never inspects that
    output, and it is the forward-loop goroutine that panics, with the error
    of [ForwardPorts]. *)
Lemma monitor_ignores_listen_failure :
  let r := ListenFailed "Unable to listen on port 4000: address already in use"
             (CollabError 3 "unable to listen on any of the requested ports") in
  err_output (fst (forwarder r)) = "Unable to listen on port 4000: address already in use"%string /\
  (forall tr, strip tr = fst (forwarder r) ->
     err_output tr = err_output (fst (forwarder r)) /\
     monitor EmptyString EmptyString false tr = MonitorBlocked) /\
  forward_loop (snd (forwarder r)) =
    LoopPanic (CollabError 3 "unable to listen on any of the requested ports").
Proof.
  intros r. split; [reflexivity|]. split; [|reflexivity].
  intros tr H. split.
  - rewrite <- H. symmetry. apply err_output_strip.
  - apply monitor_no_close, strip_no_close. rewrite H. simpl. intros [E|[]]. discriminate.
Qed.

(** C7 (amended): the forward-loop goroutine panics with the error of
    [ForwardPorts] whenever there is one and returns only on nil.  The
    monitor goroutine leaves its loop only once [readyChan] is closed; the
    next time it runs it reads the buffers once and panics if error output
    was written by then, else passes informational output to [log.Debug].
    Over every scheduling of client-go's forwarder: when connecting or
    listening fails, the forward loop panics with the forwarder's error and
    the monitor never finishes (error output written on a failed listen is
    never inspected); when listening succeeds, no error output is written,
    so the monitor never panics and at most logs the "Forwarding from" lines
    at debug level. *)
Theorem post_launch_faults :
  (forall err, forward_loop (Some err) = LoopPanic err) /\
  forward_loop None = LoopReturned /\
  (forall tr1 tr2 tr3 : list tunnel_event,
     Forall (fun e => e <> CloseReady) tr1 -> Forall (fun e => e <> MonitorRuns) tr2 ->
     monitor EmptyString EmptyString false (tr1 ++ CloseReady :: tr2 ++ MonitorRuns :: tr3) =
       inspect (out_output (tr1 ++ tr2)) (err_output (tr1 ++ tr2))) /\
  (forall tr : list tunnel_event, Forall (fun e => e <> CloseReady) tr ->
     monitor EmptyString EmptyString false tr = MonitorBlocked) /\
  (forall (r : forward_run) (tr : list tunnel_event), strip tr = fst (forwarder r) ->
     match r with
     | DialFailed err | ListenFailed _ err =>
         forward_loop (snd (forwarder r)) = LoopPanic err /\
         monitor EmptyString EmptyString false tr = MonitorBlocked
     | Listening outs ret =>
         (forall err, ret = Some err -> forward_loop (snd (forwarder r)) = LoopPanic err) /\
         (monitor EmptyString EmptyString false tr = MonitorBlocked \/
          monitor EmptyString EmptyString false tr =
            (if negb (String.length (concat_outs outs) =? 0)%nat
             then MonitorDebug (concat_outs outs) else MonitorDone)) /\
         monitor EmptyString EmptyString false (tr ++ [MonitorRuns]) =
           (if negb (String.length (concat_outs outs) =? 0)%nat
            then MonitorDebug (concat_outs outs) else MonitorDone)
     end).
Proof.
  split; [reflexivity|]. split; [reflexivity|]. split; [|split].
  - intros tr1 tr2 tr3 Hnc Hnr.
    rewrite monitor_open_prefix by exact Hnc. simpl.
    rewrite monitor_closed_run by exact Hnr.
    assert (Ho : forall t1 t2, out_output (t1 ++ t2) = (out_output t1 +:+ out_output t2)%string).
    { intros t1 t2. induction t1 as [|e t1 IH]; [reflexivity|].
      destruct e; simpl; rewrite ?IH, ?string_app_assoc; reflexivity. }
    assert (He : forall t1 t2, err_output (t1 ++ t2) = (err_output t1 +:+ err_output t2)%string).
    { intros t1 t2. induction t1 as [|e t1 IH]; [reflexivity|].
      destruct e; simpl; rewrite ?IH, ?string_app_assoc; reflexivity. }
    rewrite Ho, He. reflexivity.
  - exact (monitor_no_close EmptyString EmptyString).
  - intros r tr H. destruct r as [err | msg err | outs ret].
    + split; [reflexivity|]. apply monitor_no_close, strip_no_close. rewrite H. simpl. tauto.
    + split; [reflexivity|]. apply monitor_no_close, strip_no_close. rewrite H. simpl.
      intros [E|[]]. discriminate.
    + split; [intros err ->; reflexivity|].
      destruct (monitor_listening EmptyString outs tr H) as [H1 H2].
      rewrite <- inspect_no_errOut. split; [exact H1 | exact H2].
Qed.

Lemma post_launch_faults_witness :
  strip [WriteOut "Forwarding from 127.0.0.1:4000 -> 4000"; MonitorRuns; CloseReady] =
    fst (forwarder (Listening ["Forwarding from 127.0.0.1:4000 -> 4000"] None)) /\
  monitor EmptyString EmptyString false
    ([WriteOut "Forwarding from 127.0.0.1:4000 -> 4000"; MonitorRuns; CloseReady] ++ [MonitorRuns]) =
    MonitorDebug "Forwarding from 127.0.0.1:4000 -> 4000".
Proof.
  assert (H : strip [WriteOut "Forwarding from 127.0.0.1:4000 -> 4000"; MonitorRuns; CloseReady] =
    fst (forwarder (Listening ["Forwarding from 127.0.0.1:4000 -> 4000"] None))) by reflexivity.
  split; [exact H|].
  exact (proj2 (proj2 (proj2 (proj2 (proj2 (proj2 post_launch_faults)))
                  (Listening ["Forwarding from 127.0.0.1:4000 -> 4000"] None) _ H))).
Defined.

(* ------------------------------------------------------------------ *)
(** ** Listener lemmas *)

Definition pending (st : lstate) : nat :=
  match st with LWaiting _ => 1%nat | LExited => 0%nat end.

Lemma run_listener_app key st (tr1 tr2 : list sig_event) :
  run_listener key st (tr1 ++ tr2) =
  (fst (run_listener key (fst (run_listener key st tr1)) tr2),
   snd (run_listener key st tr1) ++ snd (run_listener key (fst (run_listener key st tr1)) tr2)).
Proof.
  revert st. induction tr1 as [|e tr1 IH]; intros st; simpl.
  - destruct (run_listener key st tr2); reflexivity.
  - destruct (listener_step key st e) as [st1 c1]. rewrite IH.
    destruct (run_listener key st1 tr1) as [st2 c2]; simpl.
    rewrite app_assoc. reflexivity.
Qed.

Lemma run_listener_pending key st (tr : list sig_event) :
  (length (snd (run_listener key st tr)) + pending (fst (run_listener key st tr)))%nat = pending st /\
  Forall (fun k => k = key) (snd (run_listener key st tr)).
Proof.
  revert st. induction tr as [|e tr IH]; intros st; simpl; [split; [lia | constructor]|].
  destruct (listener_step key st e) as [st1 c1] eqn:Hs.
  destruct (run_listener key st1 tr) as [st2 c2] eqn:Hr. simpl.
  destruct (IH st1) as [IHl IHf]. rewrite Hr in IHl, IHf. simpl in IHl, IHf.
  rewrite length_app. split; [|apply Forall_app; split; [|exact IHf]].
  - destruct e as [s|]; destruct st as [[]|]; simpl in Hs;
      try (destruct (notified s)); injection Hs as <- <-; simpl in *; lia.
  - destruct e as [s|]; destruct st as [[]|]; simpl in Hs;
      try (destruct (notified s)); injection Hs as <- <-; repeat constructor.
Qed.

Lemma run_listener_exited key (tr : list sig_event) :
  run_listener key LExited tr = (LExited, []).
Proof.
  induction tr as [|e tr IH]; [reflexivity|]. simpl.
  destruct e; simpl; rewrite IH; reflexivity.
Qed.

Definition armed (st : lstate) : Prop := st = LWaiting true \/ st = LExited.

Lemma run_listener_armed key st (tr : list sig_event) :
  armed st -> armed (fst (run_listener key st tr)).
Proof.
  revert st. induction tr as [|e tr IH]; intros st Hst; simpl; [exact Hst|].
  destruct (listener_step key st e) as [st1 c1] eqn:Hs.
  destruct (run_listener key st1 tr) as [st2 c2] eqn:Hr. simpl.
  change st2 with (fst (st2, c2)). rewrite <- Hr. apply IH.
  destruct Hst as [-> | ->]; destruct e as [s|]; simpl in Hs;
    try (destruct (notified s)); injection Hs as <- _; unfold armed; auto.
Qed.

Lemma registerForwarding_listeners ns n c w u w' :
  registerForwarding ns n c w = Done u w' -> listeners w' = listeners w.
Proof.
  unfold registerForwarding, bind, gets, modify. simpl.
  destruct (activeForwards w !! forward_key ns n); simpl.
  - unfold close. case_decide; [discriminate|]. intros Heq. injection Heq as _ <-. reflexivity.
  - intros Heq. injection Heq as _ <-. reflexivity.
Qed.

(** C9 (signal-driven stop): a successful [Forward] attaches exactly one
    new listener for [(namespace, name)]; whatever signals and scheduling
    happen, that listener calls [StopForwarding] at most once and only for
    its key, and once SIGINT or SIGTERM was delivered and the listener was
    scheduled afterwards, it has called [StopForwarding(namespace, name)]
    exactly once and exited. *)
Theorem signal_listener_stops_once (env : Env) (ns name : string) (fp tp : Z) (path : string)
    (lvl : Z) (ctx : string) (w w' : World)
    (Hok : Forward env ns name fp tp path lvl ctx w = Done None w') :
  listeners w' = (ns, name) :: listeners w /\
  forall tr : list sig_event,
    (length (snd (run_listener (ns, name) (LWaiting false) tr)) <= 1)%nat /\
    Forall (fun k => k = (ns, name)) (snd (run_listener (ns, name) (LWaiting false) tr)) /\
    (forall tr1 tr2 tr3 s, notified s = true ->
       tr = tr1 ++ Deliver s :: tr2 ++ Schedule :: tr3 ->
       run_listener (ns, name) (LWaiting false) tr = (LExited, [(ns, name)])).
Proof.
  split.
  - rewrite Forward_eq in Hok.
    destruct (after_overwriteLog_proj lvl w) as (_ & _ & _ & Hl & _).
    destruct (env_ClientConfig env path ctx) as [config|e]; [|discriminate].
    destruct (prepareForward env config ns name) as [resType|e]; [|discriminate].
    destruct (newDialer env config ns resType name) as [dialer|e]; [|discriminate].
    destruct (env_PortforwardNew env dialer [ports_of fp tp]); [discriminate|].
    destruct (registerForwarding ns name _ _) as [u w3|w3] eqn:E; [|discriminate].
    injection Hok as <-. apply registerForwarding_listeners in E.
    cbn [set_listeners listeners]. rewrite E, (proj1 (proj2 (proj2 (proj2 (launched_proj _ _))))), Hl.
    reflexivity.
  - intros tr.
    destruct (run_listener_pending (ns, name) (LWaiting false) tr) as [Hlen Hall].
    split; [simpl in Hlen; lia|]. split; [exact Hall|].
    intros tr1 tr2 tr3 s Hs ->.
    assert (Hfin : fst (run_listener (ns, name) (LWaiting false)
                          (tr1 ++ Deliver s :: tr2 ++ Schedule :: tr3)) = LExited).
    { replace (tr1 ++ Deliver s :: tr2 ++ Schedule :: tr3)
        with (tr1 ++ [Deliver s] ++ tr2 ++ [Schedule] ++ tr3) by reflexivity.
      rewrite !run_listener_app. cbn [fst].
      set (s1 := fst (run_listener (ns, name) (LWaiting false) tr1)).
      assert (Ha : armed (fst (run_listener (ns, name) s1 [Deliver s]))).
      { destruct s1 as [b|]; simpl; rewrite ?Hs; unfold armed; auto. }
      destruct (run_listener_armed (ns, name) _ tr2 Ha) as [E|E]; rewrite E;
        simpl; rewrite run_listener_exited; reflexivity. }
    rewrite Hfin in Hlen. simpl in Hlen.
    destruct (run_listener (ns, name) (LWaiting false) (tr1 ++ Deliver s :: tr2 ++ Schedule :: tr3))
      as [st calls] eqn:Hr.
    simpl in Hfin, Hlen, Hall. subst st.
    destruct calls as [|k [|k' ks]]; simpl in Hlen; try lia.
    apply Forall_cons in Hall as [-> _]. reflexivity.
Qed.

Lemma signal_listener_stops_once_witness :
  exists w', Forward (env_ok "https://1.2.3.4:6443") "test" "web" 4000 80 "cfg" 0 EmptyString
               initial_world = Done None w' /\
  run_listener ("test", "web") (LWaiting false) [Schedule; Deliver SIGTERM; Schedule; Deliver SIGINT; Schedule]
    = (LExited, [("test", "web")]).
Proof.
  eexists. split; [vm_compute; reflexivity|].
  refine (proj2 (proj2 (proj2 (signal_listener_stops_once (env_ok "https://1.2.3.4:6443")
            "test" "web" 4000 80 "cfg" 0 EmptyString initial_world _ _) _))
            [Schedule] [] [Deliver SIGINT; Schedule] SIGTERM eq_refl eq_refl).
  vm_compute. reflexivity.
Defined.

(** C10 (error handlers): whatever the collaborators do, after a [Forward]
    call k8s' [runtime.ErrorHandlers] is the empty list if [logLevel] is
    [Off] and is unchanged for every other level. *)
Theorem forward_error_handlers (env : Env) (ns name : string) (fp tp : Z) (path : string)
    (lvl : Z) (ctx : string) (w : World) :
  errorHandlers (world_of (Forward env ns name fp tp path lvl ctx w)) =
    (if (lvl =? Level.Off)%Z then [] else errorHandlers w) /\
  (forall l, In l [Level.Debug; Level.Info; Level.Warn; Level.Error] ->
     errorHandlers (world_of (Forward env ns name fp tp path l ctx w)) = errorHandlers w) /\
  errorHandlers (world_of (Forward env ns name fp tp path Level.Off ctx w)) = [].
Proof.
  assert (Hgen : forall l, errorHandlers (world_of (Forward env ns name fp tp path l ctx w)) =
                             (if (l =? Level.Off)%Z then [] else errorHandlers w)).
  { intros l. rewrite Forward_eq.
    destruct (after_overwriteLog_proj l w) as (_ & _ & _ & _ & _ & Hh).
    destruct (env_ClientConfig env path ctx) as [config|e]; [|exact Hh].
    destruct (prepareForward env config ns name) as [resType|e]; [|exact Hh].
    destruct (newDialer env config ns resType name) as [dialer|e]; [|exact Hh].
    destruct (env_PortforwardNew env dialer [ports_of fp tp]); [exact Hh|].
    pose proof (registerForwarding_handlers ns name (next_chan (after_overwriteLog l w))
                  (launched l (after_overwriteLog l w))) as Hr.
    destruct (registerForwarding ns name _ _) as [u w3|w3]; simpl in Hr |- *;
      rewrite Hr; exact Hh. }
  split; [apply Hgen|]. split.
  - intros l Hl. rewrite Hgen.
    simpl in Hl. destruct Hl as [<-|[<-|[<-|[<-|[]]]]]; reflexivity.
  - rewrite Hgen. reflexivity.
Qed.

Lemma forward_error_handlers_witness :
  errorHandlers (world_of (Forward env_ghost "test" "ghost" 4000 80 "cfg" Level.Off EmptyString
                             initial_world)) = [] /\
  errorHandlers (world_of (Forward env_ghost "test" "ghost" 4000 80 "cfg" Level.Warn EmptyString
                             initial_world)) = errorHandlers initial_world.
Proof.
  split.
  - exact (proj2 (proj2 (forward_error_handlers env_ghost "test" "ghost" 4000 80 "cfg"
                           Level.Warn EmptyString initial_world))).
  - refine (proj1 (proj2 (forward_error_handlers env_ghost "test" "ghost" 4000 80 "cfg"
                            Level.Warn EmptyString initial_world)) Level.Warn _).
    simpl. auto.
Defined.

(* ================================================================== *)
(** * Further properties of the package *)

(** ** Go's strings functions *)

Lemma prefix_spec (p s : string) : String.prefix p s = true <-> exists suf, s = (p +:+ suf)%string.
Proof.
  revert s. induction p as [|a p IH]; intros s.
  - split; [intros _; exists s; reflexivity | destruct s; reflexivity].
  - destruct s as [|b s]; simpl.
    + split; [discriminate | intros [suf Hs]; discriminate].
    + destruct (ascii_dec a b) as [<-|Hab].
      * rewrite IH. split; intros [suf Hs]; exists suf; [rewrite Hs; reflexivity|].
        injection Hs as Hs. exact Hs.
      * split; [discriminate|]. intros [suf Hs]. injection Hs as Hs _. congruence.
Qed.

Lemma Contains_cons (c : ascii) (s sub : string) :
  Contains (String c s) sub = (String.prefix sub (String c s) || Contains s sub)%bool.
Proof. reflexivity. Qed.

Lemma Contains_spec (s sub : string) :
  Contains s sub = true <-> exists pre suf, s = (pre +:+ sub +:+ suf)%string.
Proof.
  split.
  - induction s as [|c s IH]; intros H.
    + destruct sub; [|discriminate]. exists EmptyString, EmptyString. reflexivity.
    + rewrite Contains_cons in H. apply orb_true_iff in H as [H|H].
      * apply prefix_spec in H as [suf Hs]. exists EmptyString, suf. exact Hs.
      * destruct (IH H) as (pre & suf & ->). exists (String c pre), suf. reflexivity.
  - intros (pre & suf & ->). induction pre as [|c pre IH].
    + assert (Hp : String.prefix sub (sub +:+ suf)%string = true)
        by (apply prefix_spec; exists suf; reflexivity).
      change (EmptyString +:+ ?x)%string with x.
      destruct (sub +:+ suf)%string eqn:E; [destruct sub; [reflexivity | simpl in Hp; discriminate]|].
      rewrite Contains_cons, Hp. reflexivity.
    + change (EmptyString +:+ ?x)%string with x in *.
      change (String c pre +:+ ?x)%string with (String c (pre +:+ x)) in *.
      rewrite Contains_cons, IH. apply orb_true_r.
Qed.

Lemma split_once_spec (s : string) (c : ascii) :
  match split_once s c with
  | Some (a, b) => s = (a +:+ String c b)%string /\ in_cutset c a = false
  | None => in_cutset c s = false
  end.
Proof.
  induction s as [|d s IH]; simpl; [reflexivity|].
  destruct (Ascii.eqb_spec d c) as [->|Hdc].
  - split; reflexivity.
  - destruct (split_once s c) as [[a b]|].
    + destruct IH as [-> Ha]. split; [reflexivity|]. simpl.
      destruct (Ascii.eqb_spec c d); [congruence|]. exact Ha.
    + simpl. destruct (Ascii.eqb_spec c d); [congruence|]. exact IH.
Qed.

Lemma TrimLeft_head (s cutset : string) (c : ascii) (r : string) :
  TrimLeft s cutset = String c r -> in_cutset c cutset = false.
Proof.
  induction s as [|d s IH]; simpl; [discriminate|].
  destruct (in_cutset d cutset) eqn:E; [exact IH|]. intros H. injection H as <- _. exact E.
Qed.

Lemma newDialer_url (env : Env) (config : Config) (namespace resType podOrService : string)
    (Hrt : env_RoundTripperFor env config = None) :
  let std := ("/api/v1/namespaces/" +:+ namespace +:+ "/" +:+ resType +:+ "/"
              +:+ podOrService +:+ "/portforward")%string in
  exists u, newDialer env config namespace resType podOrService = Ok {| dialer_url := u |} /\
    URL_Scheme u = "https"%string /\
    (URL_Host u +:+ URL_Path u)%string = (TrimLeft (Host config) "https://" +:+ std)%string /\
    in_cutset "/"%char (URL_Host u) = false /\
    (forall c r, URL_Host u = String c r -> in_cutset c "https://" = false) /\
    (exists r, URL_Path u = String "/"%char r) /\
    (exists pre, URL_Path u = (pre +:+ std)%string).
Proof.
  intros std. unfold newDialer. rewrite Hrt. unfold SplitN2.
  pose proof (split_once_spec (TrimLeft (Host config) "https://") "/"%char) as Hsp.
  destruct (split_once (TrimLeft (Host config) "https://") "/"%char) as [[a b]|] eqn:E.
  - destruct Hsp as [Hs Ha]. eexists. split; [reflexivity|]. cbn [URL_Scheme URL_Host URL_Path].
    split; [reflexivity|]. split.
    + rewrite Hs, string_app_assoc. reflexivity.
    + split; [exact Ha|]. split.
      * intros c r ->. apply (TrimLeft_head (Host config) _ c (r +:+ String "/" b)%string).
        rewrite Hs. reflexivity.
      * split; [eexists; reflexivity|]. exists (String "/"%char b). reflexivity.
  - eexists. split; [reflexivity|]. cbn [URL_Scheme URL_Host URL_Path].
    split; [reflexivity|]. split; [reflexivity|]. split; [exact Hsp|]. split.
    + intros c r Hr. exact (TrimLeft_head _ _ c r Hr).
    + split; [eexists; reflexivity|]. exists EmptyString. reflexivity.
Qed.

Lemma TrimLeft_scheme (c : ascii) (rest : string) (Hc : in_cutset c "https://" = false) :
  TrimLeft ("https://" +:+ String c rest) "https://" = String c rest.
Proof.
  change (TrimLeft (String c rest) "https://" = String c rest).
  cbn [TrimLeft]. rewrite Hc. reflexivity.
Qed.

(** [newDialer] (X3): once the round tripper is built, the dialer's URL uses
    the https scheme, its host holds no '/' and does not start with a byte of
    the cutset "https://", its path starts with '/' and ends with the
    port-forward subresource path of the target, and host and path together
    spell the trimmed [Host] followed by that subresource path. *)
Theorem newDialer_url_shape (env : Env) (config : Config) (namespace resType podOrService : string)
    (Hrt : env_RoundTripperFor env config = None) :
  exists u, newDialer env config namespace resType podOrService = Ok {| dialer_url := u |} /\
    URL_Scheme u = "https"%string /\
    (URL_Host u +:+ URL_Path u)%string
      = (TrimLeft (Host config) "https://" +:+ "/api/v1/namespaces/" +:+ namespace +:+ "/"
         +:+ resType +:+ "/" +:+ podOrService +:+ "/portforward")%string /\
    in_cutset "/"%char (URL_Host u) = false /\
    (forall c r, URL_Host u = String c r -> in_cutset c "https://" = false) /\
    (exists r, URL_Path u = String "/"%char r) /\
    (exists pre, URL_Path u = (pre +:+ "/api/v1/namespaces/" +:+ namespace +:+ "/"
         +:+ resType +:+ "/" +:+ podOrService +:+ "/portforward")%string).
Proof. exact (newDialer_url env config namespace resType podOrService Hrt). Qed.

Lemma newDialer_url_shape_witness :
  env_RoundTripperFor (env_ok "https://10.0.0.1:6443/prefix") {| Host := "https://10.0.0.1:6443/prefix" |} = None /\
  exists u, newDialer (env_ok "https://10.0.0.1:6443/prefix") {| Host := "https://10.0.0.1:6443/prefix" |}
              "test" "pods" "web" = Ok {| dialer_url := u |} /\
    URL_Scheme u = "https"%string /\
    (URL_Host u +:+ URL_Path u)%string
      = (TrimLeft "https://10.0.0.1:6443/prefix" "https://" +:+ "/api/v1/namespaces/" +:+ "test" +:+ "/"
         +:+ "pods" +:+ "/" +:+ "web" +:+ "/portforward")%string /\
    in_cutset "/"%char (URL_Host u) = false /\
    (forall c r, URL_Host u = String c r -> in_cutset c "https://" = false) /\
    (exists r, URL_Path u = String "/"%char r) /\
    (exists pre, URL_Path u = (pre +:+ "/api/v1/namespaces/" +:+ "test" +:+ "/"
         +:+ "pods" +:+ "/" +:+ "web" +:+ "/portforward")%string).
Proof.
  split; [reflexivity|].
  apply (newDialer_url_shape (env_ok "https://10.0.0.1:6443/prefix") {| Host := "https://10.0.0.1:6443/prefix" |}).
  reflexivity.
Defined.

Lemma newDialer_host_prefix (env : Env) (config : Config) (namespace resType podOrService : string)
    (Hrt : env_RoundTripperFor env config = None) :
  exists u, newDialer env config namespace resType podOrService = Ok {| dialer_url := u |} /\
    exists r, TrimLeft (Host config) "https://" = (URL_Host u +:+ r)%string /\
      (r = EmptyString \/ exists r', r = String "/"%char r').
Proof.
  unfold newDialer. rewrite Hrt. unfold SplitN2.
  pose proof (split_once_spec (TrimLeft (Host config) "https://") "/"%char) as Hsp.
  destruct (split_once (TrimLeft (Host config) "https://") "/"%char) as [[a b]|].
  - destruct Hsp as [Hs _]. eexists. split; [reflexivity|]. cbn [URL_Host].
    exists (String "/"%char b). split; [exact Hs|]. right. eexists; reflexivity.
  - eexists. split; [reflexivity|]. cbn [URL_Host].
    exists EmptyString. split; [symmetry; apply string_app_nil_r | left; reflexivity].
Qed.

(** [newDialer] (X4): for a [Host] of the form "https://" followed by a host
    [h] whose first byte is outside the cutset, the dialer's URL host is the
    part of [h] up to its first '/' (all of [h] when it has none): it holds
    no '/', and [h] is the URL host followed by nothing or by a '/'.  The
    path starts with '/', and host and path spell [h] followed by the
    port-forward subresource path. *)
Theorem newDialer_plain_host (env : Env) (c : ascii) (rest namespace resType podOrService : string)
    (Hrt : env_RoundTripperFor env {| Host := "https://" +:+ String c rest |} = None)
    (Hc : in_cutset c "https://" = false) :
  exists u, newDialer env {| Host := "https://" +:+ String c rest |} namespace resType podOrService
              = Ok {| dialer_url := u |} /\
    in_cutset "/"%char (URL_Host u) = false /\
    (exists r, String c rest = (URL_Host u +:+ r)%string /\
       (r = EmptyString \/ exists r', r = String "/"%char r')) /\
    (exists r, URL_Path u = String "/"%char r) /\
    (URL_Host u +:+ URL_Path u)%string
      = (String c rest +:+ "/api/v1/namespaces/" +:+ namespace +:+ "/"
         +:+ resType +:+ "/" +:+ podOrService +:+ "/portforward")%string.
Proof.
  destruct (newDialer_url env _ namespace resType podOrService Hrt)
    as (u & Hu & _ & Hhp & Hslash & _ & Hpath & _).
  destruct (newDialer_host_prefix env _ namespace resType podOrService Hrt) as (u' & Hu' & Hpre).
  rewrite Hu in Hu'. injection Hu' as <-.
  cbn [Host] in Hhp, Hpre. rewrite (TrimLeft_scheme c rest Hc) in Hhp, Hpre.
  exists u. split; [exact Hu|]. split; [exact Hslash|]. split; [exact Hpre|].
  split; [exact Hpath | exact Hhp].
Qed.

Lemma newDialer_plain_host_witness :
  env_RoundTripperFor (env_ok "https://10.0.0.1:6443/k8s/clusters/c1")
    {| Host := "https://" +:+ String "1" "0.0.0.1:6443/k8s/clusters/c1" |} = None /\
  in_cutset "1"%char "https://" = false /\
  exists u, newDialer (env_ok "https://10.0.0.1:6443/k8s/clusters/c1")
              {| Host := "https://" +:+ String "1" "0.0.0.1:6443/k8s/clusters/c1" |}
              "test" "services" "web-svc" = Ok {| dialer_url := u |} /\
    in_cutset "/"%char (URL_Host u) = false /\
    (exists r, String "1" "0.0.0.1:6443/k8s/clusters/c1" = (URL_Host u +:+ r)%string /\
       (r = EmptyString \/ exists r', r = String "/"%char r')) /\
    (exists r, URL_Path u = String "/"%char r) /\
    (URL_Host u +:+ URL_Path u)%string
      = (String "1" "0.0.0.1:6443/k8s/clusters/c1" +:+ "/api/v1/namespaces/" +:+ "test" +:+ "/"
         +:+ "services" +:+ "/" +:+ "web-svc" +:+ "/portforward")%string.
Proof.
  split; [reflexivity|]. split; [reflexivity|].
  apply (newDialer_plain_host (env_ok "https://10.0.0.1:6443/k8s/clusters/c1") "1"
           "0.0.0.1:6443/k8s/clusters/c1"); reflexivity.
Defined.

Lemma Contains_not_found (s : string) :
  Contains s "not found" = true <-> exists pre suf, s = (pre +:+ "not found" +:+ suf)%string.
Proof. apply Contains_spec. Qed.

(** [prepareForward] (X5): once the clientset is built, the resource type is
    "services" or "pods"; it is "pods" exactly when the service lookup failed
    with an error whose text contains "not found" anywhere and the pod lookup
    succeeded; and an error it returns is the service lookup's own error
    (whose text has no "not found"), the pod lookup's own error (likewise),
    or the synthesized "no service or pod" error. *)
Theorem prepareForward_outcomes (env : Env) (config : Config) (namespace name : string)
    (Hcs : env_NewForConfig env config = None) :
  (forall r, prepareForward env config namespace name = Ok r ->
     r = "services"%string \/ r = "pods"%string) /\
  (prepareForward env config namespace name = Ok "pods"%string <->
     exists e pre suf, env_GetService env config namespace name = Some e /\
       Error e = (pre +:+ "not found" +:+ suf)%string /\
       env_GetPod env config namespace name = None) /\
  (forall e, prepareForward env config namespace name = Err e ->
     (env_GetService env config namespace name = Some e /\
        ~ exists pre suf, Error e = (pre +:+ "not found" +:+ suf)%string) \/
     (env_GetPod env config namespace name = Some e /\
        ~ exists pre suf, Error e = (pre +:+ "not found" +:+ suf)%string) \/
     e = NewError ("no service or pod with name " +:+ name +:+ " found")%string).
Proof.
  unfold prepareForward. rewrite Hcs.
  destruct (env_GetService env config namespace name) as [e1|] eqn:Hs.
  - destruct (Contains (Error e1) "not found") eqn:H1; cbn [negb].
    + destruct (env_GetPod env config namespace name) as [e2|] eqn:Hp.
      * destruct (Contains (Error e2) "not found") eqn:H2; cbn [negb].
        -- split; [intros r Hr; discriminate|]. split.
           ++ split; [discriminate|]. intros (e & pre & suf & _ & _ & Hpod). discriminate.
           ++ intros e He. injection He as <-. right. right. reflexivity.
        -- split; [intros r Hr; discriminate|]. split.
           ++ split; [discriminate|]. intros (e & pre & suf & _ & _ & Hpod). discriminate.
           ++ intros e He. injection He as <-. right. left. split; [reflexivity|].
              rewrite <- Contains_not_found, H2. discriminate.
      * split; [intros r Hr; injection Hr as <-; right; reflexivity|]. split.
        -- split; [intros _|reflexivity]. apply Contains_not_found in H1 as (pre & suf & Hm).
           exists e1, pre, suf. split; [reflexivity|]. split; [exact Hm | reflexivity].
        -- intros e He. discriminate.
    + split; [intros r Hr; discriminate|]. split.
      * split; [discriminate|]. intros (e & pre & suf & He & Hm & _).
        injection He as <-. apply (f_equal (fun s => Contains s "not found")) in Hm.
        rewrite H1 in Hm. symmetry in Hm. rewrite (proj2 (Contains_not_found _)) in Hm;
          [discriminate | exists pre, suf; reflexivity].
      * intros e He. injection He as <-. left. split; [reflexivity|].
        rewrite <- Contains_not_found, H1. discriminate.
  - split; [intros r Hr; injection Hr as <-; left; reflexivity|]. split.
    + split; [discriminate|]. intros (e & pre & suf & He & _). discriminate.
    + intros e He. discriminate.
Qed.

Lemma prepareForward_outcomes_witness :
  env_NewForConfig (env_ok "https://1.2.3.4:6443") {| Host := "https://1.2.3.4:6443" |} = None /\
  prepareForward (env_ok "https://1.2.3.4:6443") {| Host := "https://1.2.3.4:6443" |} "test" "web"
    = Ok "pods"%string.
Proof.
  split; [reflexivity|].
  apply (proj2 (proj1 (proj2 (prepareForward_outcomes (env_ok "https://1.2.3.4:6443")
                                 {| Host := "https://1.2.3.4:6443" |} "test" "web" eq_refl)))).
  exists (CollabError 1 "services x not found"), "services x "%string, EmptyString.
  split; [reflexivity|]. split; reflexivity.
Defined.

Lemma bind_Done {A B} (m : M A) (k : A -> M B) w a w' :
  m w = Done a w' -> bind m k w = k a w'.
Proof. intros E. unfold bind. rewrite E. reflexivity. Qed.

(** [registerForwarding], [StopForwarding] (X6): registering a fresh stop
    channel and then stopping the same target leaves the registry as a plain
    [StopForwarding] would, and closes the new channel after the one it
    replaced (if any); nothing panics. *)
Theorem register_then_stop (ns n : string) (h : chan) (w : World)
    (HI : Inv w) (Hf : ~ seen w h) :
  (registerForwarding ns n h ;;; StopForwarding ns n) w =
  Done tt (mkWorld (delete (forward_key ns n) (activeForwards w))
                   (h :: opt_list (activeForwards w !! forward_key ns n) ++ closed_log w)
                   (errorHandlers w) (tasks w) (listeners w) (next_chan w)).
Proof.
  rewrite (bind_Done _ _ w tt _ (registerForwarding_eq ns n h w HI)).
  rewrite (StopForwarding_eq ns n _ (register_Inv ns n h w HI Hf)).
  cbn [activeForwards closed_log errorHandlers tasks listeners next_chan].
  rewrite lookup_insert_eq, delete_insert_eq. reflexivity.
Qed.

Lemma register_then_stop_witness :
  Inv (set_active (<["test/web" := 0%nat]> ∅) (set_next 1%nat initial_world)) /\
  ~ seen (set_active (<["test/web" := 0%nat]> ∅) (set_next 1%nat initial_world)) 1%nat /\
  (registerForwarding "test" "web" 1%nat ;;; StopForwarding "test" "web")
    (set_active (<["test/web" := 0%nat]> ∅) (set_next 1%nat initial_world)) =
  Done tt (mkWorld ∅ [1%nat; 0%nat] [0%nat] [] [] 1%nat).
Proof.
  assert (HI : Inv (set_active (<["test/web" := 0%nat]> ∅) (set_next 1%nat initial_world))).
  { split; [constructor | split]; cbn [activeForwards set_active closed_log set_next initial_world].
    - intros k h Hk Hin. inversion Hin.
    - intros k1 k2 h H1 H2. apply lookup_insert_Some in H1, H2.
      destruct H1 as [[<- _] | [_ H1]]; [|rewrite lookup_empty in H1; discriminate].
      destruct H2 as [[<- _] | [_ H2]]; [reflexivity|rewrite lookup_empty in H2; discriminate]. }
  assert (Hf : ~ seen (set_active (<["test/web" := 0%nat]> ∅) (set_next 1%nat initial_world)) 1%nat).
  { intros [Hin | [k Hk]]; cbn [activeForwards set_active closed_log set_next initial_world] in *.
    - inversion Hin.
    - apply lookup_insert_Some in Hk. destruct Hk as [[_ Hk] | [_ Hk]]; [discriminate|].
      rewrite lookup_empty in Hk. discriminate. }
  split; [exact HI|]. split; [exact Hf|].
  rewrite (register_then_stop "test" "web" 1%nat _ HI Hf). vm_compute. reflexivity.
Defined.





(** [closeOnSigterm], [StopForwarding] (X10): the listener stops whatever is
    registered under its target's key when it wakes, never panics on a
    consistent registry (also when the target was stopped or replaced in
    the meantime), and otherwise leaves the world untouched. *)
Theorem listener_effect (ns n : string) (tr : list sig_event) (w : World) (HI : Inv w) :
  exists w', apply_stops (snd (run_listener (ns, n) (LWaiting false) tr)) w = Done tt w' /\
    (snd (run_listener (ns, n) (LWaiting false) tr) = [] -> w' = w) /\
    (snd (run_listener (ns, n) (LWaiting false) tr) <> [] ->
       activeForwards w' = delete (forward_key ns n) (activeForwards w) /\
       closed_log w' = opt_list (activeForwards w !! forward_key ns n) ++ closed_log w).
Proof.
  destruct (run_listener_pending (ns, n) (LWaiting false) tr) as [Hlen Hall].
  destruct (snd (run_listener (ns, n) (LWaiting false) tr)) as [|k [|k' ks]] eqn:E.
  - exists w. split; [reflexivity|]. split; [reflexivity|]. congruence.
  - apply Forall_cons in Hall as [-> _]. simpl.
    eexists. split.
    + rewrite (bind_Done _ _ w tt _ (StopForwarding_eq ns n w HI)). reflexivity.
    + split; [discriminate|]. intros _. split; reflexivity.
  - simpl in Hlen. lia.
Qed.

Lemma listener_effect_witness :
  Inv initial_world /\
  exists w', apply_stops (snd (run_listener ("test", "web") (LWaiting false) [Deliver SIGINT; Schedule]))
               initial_world = Done tt w' /\
    (snd (run_listener ("test", "web") (LWaiting false) [Deliver SIGINT; Schedule]) = [] -> w' = initial_world) /\
    (snd (run_listener ("test", "web") (LWaiting false) [Deliver SIGINT; Schedule]) <> [] ->
       activeForwards w' = delete (forward_key "test" "web") (activeForwards initial_world) /\
       closed_log w' = opt_list (activeForwards initial_world !! forward_key "test" "web")
                         ++ closed_log initial_world).
Proof.
  split; [exact Inv_initial|].
  exact (listener_effect "test" "web" [Deliver SIGINT; Schedule] initial_world Inv_initial).
Defined.

(** The registry as a plain map: each operation sets or deletes the entry of
    its target. *)
Fixpoint registry_after (os : list reg_op) (m : gmap string chan) : gmap string chan :=
  match os with
  | [] => m
  | RegOp ns n c :: os' => registry_after os' (<[forward_key ns n := c]> m)
  | StopOp ns n :: os' => registry_after os' (delete (forward_key ns n) m)
  end.

(** [registerForwarding], [StopForwarding] (X11): any sequence of calls
    with fresh, distinct stop channels runs without a panic, ends with
    [activeForwards] equal to the plain map obtained by setting or deleting
    each call's [namespace/name] entry in turn, keeps every registered
    channel open and closes no channel twice, and changes nothing outside
    the registry and the closed channels. *)
Theorem registry_ops_as_map (os : list reg_op) (w : World)
    (HI : Inv w) (Hnd : NoDup (reg_handles os))
    (Hfr : Forall (fun h => ~ seen w h) (reg_handles os)) :
  exists w', run_ops os w = Done tt w' /\
    activeForwards w' = registry_after os (activeForwards w) /\
    Inv w' /\
    errorHandlers w' = errorHandlers w /\ tasks w' = tasks w /\
    listeners w' = listeners w /\ next_chan w' = next_chan w.
Proof.
  revert w HI Hfr. induction os as [|o os IH]; intros w Hinv Hfr.
  - exists w. split; [reflexivity|]. split; [reflexivity|]. split; [exact Hinv|]. repeat split.
  - destruct o as [ns n c | ns n]; simpl run_ops; unfold bind at 1; simpl run_op.
    + simpl in Hnd, Hfr. apply NoDup_cons in Hnd as [Hc Hnd].
      apply Forall_cons in Hfr as [Hcf Hfr].
      rewrite registerForwarding_eq by exact Hinv.
      destruct (IH Hnd _ (register_Inv ns n c w Hinv Hcf) (fresh_after_register ns n c w _ Hc Hfr))
        as (w' & Hrun & Ha & Hi & Hh & Ht & Hl & Hn).
      exists w'. cbn [registry_after activeForwards errorHandlers tasks listeners next_chan] in *.
      split; [exact Hrun|]. split; [exact Ha|]. split; [exact Hi|]. repeat split; assumption.
    + rewrite StopForwarding_eq by exact Hinv.
      assert (Hfr' : Forall (fun h => ~ seen (mkWorld (delete (forward_key ns n) (activeForwards w))
                (opt_list (activeForwards w !! forward_key ns n) ++ closed_log w)
                (errorHandlers w) (tasks w) (listeners w) (next_chan w)) h) (reg_handles os)).
      { apply Forall_forall. intros x Hx Hs. apply stop_seen in Hs.
        exact (proj1 (Forall_forall _ _) Hfr x Hx Hs). }
      destruct (IH Hnd _ (stop_Inv ns n w Hinv) Hfr')
        as (w' & Hrun & Ha & Hi & Hh & Ht & Hl & Hn).
      exists w'. cbn [registry_after activeForwards errorHandlers tasks listeners next_chan] in *.
      split; [exact Hrun|]. split; [exact Ha|]. split; [exact Hi|]. repeat split; assumption.
Qed.

Lemma registry_ops_as_map_witness :
  Inv initial_world /\
  NoDup (reg_handles [RegOp "test" "web" 0; RegOp "test" "api" 1; StopOp "test" "web"; RegOp "test" "web" 2]) /\
  Forall (fun h => ~ seen initial_world h)
    (reg_handles [RegOp "test" "web" 0; RegOp "test" "api" 1; StopOp "test" "web"; RegOp "test" "web" 2]) /\
  exists w', run_ops [RegOp "test" "web" 0; RegOp "test" "api" 1; StopOp "test" "web"; RegOp "test" "web" 2]
               initial_world = Done tt w' /\
    activeForwards w' = registry_after
      [RegOp "test" "web" 0; RegOp "test" "api" 1; StopOp "test" "web"; RegOp "test" "web" 2]
      (activeForwards initial_world) /\
    Inv w' /\
    errorHandlers w' = errorHandlers initial_world /\ tasks w' = tasks initial_world /\
    listeners w' = listeners initial_world /\ next_chan w' = next_chan initial_world.
Proof.
  assert (Hnd : NoDup (reg_handles [RegOp "test" "web" 0; RegOp "test" "api" 1; StopOp "test" "web";
                                    RegOp "test" "web" 2]))
    by (apply (bool_decide_unpack _); vm_compute; reflexivity).
  assert (Hfr : Forall (fun h => ~ seen initial_world h)
    (reg_handles [RegOp "test" "web" 0; RegOp "test" "api" 1; StopOp "test" "web"; RegOp "test" "web" 2])).
  { simpl. repeat constructor; intros [Hin | [k Hk]]; cbn in *;
      try (rewrite lookup_empty in Hk; discriminate); inversion Hin. }
  split; [exact Inv_initial|]. split; [exact Hnd|]. split; [exact Hfr|].
  exact (registry_ops_as_map _ initial_world Inv_initial Hnd Hfr).
Defined.

Lemma pretty_N_go_colon (x : N) (s : string) :
  in_cutset ":"%char s = false -> in_cutset ":"%char (pretty_N_go x s) = false.
Proof.
  revert s. induction (N.lt_wf_0 x) as [x _ IH]; intros s Hs.
  destruct (decide (x = 0)%N) as [->|Hx]; [rewrite pretty_N_go_0; exact Hs|].
  rewrite pretty_N_go_step by lia. apply IH; [apply N.div_lt; lia|].
  cbn [in_cutset]. rewrite Hs, orb_false_r.
  unfold pretty_N_char. repeat case_match; reflexivity.
Qed.

Lemma pretty_Z_colon (z : Z) : in_cutset ":"%char (pretty z) = false.
Proof.
  assert (Hp : forall p : positive, in_cutset ":"%char (pretty p) = false).
  { intros p. change (pretty p) with (pretty (N.pos p)). unfold pretty at 1, pretty_N.
    destruct (decide (N.pos p = 0%N)); [reflexivity|]. apply pretty_N_go_colon. reflexivity. }
  destruct z as [|p|p]; [reflexivity | apply Hp |].
  change (in_cutset ":"%char (String "-" (pretty p)) = false). cbn [in_cutset]. exact (Hp p).
Qed.

Lemma split_once_app (a b : string) (c : ascii) :
  in_cutset c a = false -> split_once (a +:+ String c b)%string c = Some (a, b).
Proof.
  induction a as [|d a IH]; intros Ha; simpl.
  - rewrite Ascii.eqb_refl. reflexivity.
  - simpl in Ha. apply orb_false_iff in Ha as [Hcd Ha].
    rewrite Ascii.eqb_sym, Hcd, IH by exact Ha. reflexivity.
Qed.

(** [Forward] (X12): the ports argument handed to [portforward.New] is the
    decimal [fromPort], a ':' and the decimal [toPort]; splitting it at the
    first ':' gives back exactly the two decimal strings, and different port
    pairs give different arguments. *)
Theorem ports_round_trip (fromPort toPort : Z) :
  SplitN2 (ports_of fromPort toPort) ":"%char = [pretty fromPort; pretty toPort] /\
  (forall fromPort' toPort', ports_of fromPort toPort = ports_of fromPort' toPort' ->
     fromPort = fromPort' /\ toPort = toPort').
Proof.
  assert (Hp : forall f t, ports_of f t = (pretty f +:+ String ":" (pretty t))%string) by reflexivity.
  assert (Hs : forall f t, SplitN2 (ports_of f t) ":"%char = [pretty f; pretty t]).
  { intros f t. unfold SplitN2. rewrite Hp, (split_once_app _ _ _ (pretty_Z_colon f)). reflexivity. }
  split; [apply Hs|].
  intros f' t' E. pose proof (Hs f' t') as H'. rewrite <- E, Hs in H'.
  injection H' as H1 H2. split; apply (inj pretty); assumption.
Qed.

(* ------------------------------------------------------------------ *)
(** ** Session keys *)

Lemma in_cutset_app (c : ascii) (a b : string) :
  in_cutset c (a +:+ b)%string = (in_cutset c a || in_cutset c b)%bool.
Proof. induction a as [|d a IH]; [reflexivity|]. simpl. rewrite IH. apply orb_assoc. Qed.

(** A key built from a pair without '/' is the key of that pair only. *)
Lemma forward_key_inj_r (ns n x y : string) :
  in_cutset "/"%char x = false -> in_cutset "/"%char y = false ->
  forward_key ns n = forward_key x y -> ns = x /\ n = y.
Proof.
  unfold forward_key. revert ns.
  induction x as [|d x IH]; intros [|c ns] Hx Hy Heq.
  - split; [reflexivity|]. injection Heq as Heq. exact Heq.
  - injection Heq as -> Heq. exfalso.
    assert (Hs : in_cutset "/"%char (ns +:+ "/" +:+ n)%string = true)
      by (rewrite in_cutset_app; simpl; rewrite orb_true_r; reflexivity).
    rewrite Heq in Hs. change (in_cutset "/"%char y = true) in Hs. congruence.
  - injection Heq as <- _. discriminate.
  - injection Heq as <- Heq. simpl in Hx. apply orb_false_iff in Hx as [_ Hx].
    destruct (IH ns Hx Hy Heq) as [-> ->]. split; reflexivity.
Qed.

(** client-go's [Request.Namespace] and [Request.Name] refuse a path
    segment containing '/' before any request is made: both lookups of
    [prepareForward] then fail. *)
Definition slash_lookups_fail (env : Env) : Prop :=
  forall config ns n, in_cutset "/"%char ns = true \/ in_cutset "/"%char n = true ->
    env_GetService env config ns n <> None /\ env_GetPod env config ns n <> None.

(** A direct call pattern that [Forward] cannot produce: [registerForwarding]
    for [("a", "b/c")] and then for [("a/b", "c")] uses the one key
    ["a/b/c"]. *)
Example joined_keys_collide :
  match run_ops [RegOp "a" "b/c" 1; RegOp "a/b" "c" 2] initial_world with
  | Done _ w => closed_log w = [1%nat] /\ activeForwards w !! forward_key "a" "b/c" = Some 2%nat
  | Panicked _ => False
  end.
Proof. vm_compute. split; reflexivity. Qed.

Lemma forward_registers_plain (env : Env) (Hval : slash_lookups_fail env)
    ns n fp tp path lvl ctx w w' :
  Forward env ns n fp tp path lvl ctx w = Done None w' ->
  in_cutset "/"%char ns = false /\ in_cutset "/"%char n = false.
Proof.
  intros Hd.
  assert (Hprep : forall config r, prepareForward env config ns n = Ok r ->
            in_cutset "/"%char ns = false /\ in_cutset "/"%char n = false).
  { intros config r Hpf.
    destruct (in_cutset "/"%char ns || in_cutset "/"%char n)%bool eqn:E;
      [|apply orb_false_iff in E; exact E].
    exfalso. apply orb_true_iff in E. destruct (Hval config ns n E) as [Hs Hp].
    unfold prepareForward in Hpf.
    destruct (env_NewForConfig env config); [discriminate|].
    destruct (env_GetService env config ns n) as [e1|]; [|congruence].
    destruct (negb (Contains (Error e1) "not found")); [discriminate|].
    destruct (env_GetPod env config ns n) as [e2|]; [|congruence].
    destruct (negb (Contains (Error e2) "not found")); discriminate. }
  rewrite Forward_eq in Hd.
  destruct (env_ClientConfig env path ctx) as [config|e]; [|discriminate].
  destruct (prepareForward env config ns n) as [r|e] eqn:Hpf; [|discriminate].
  exact (Hprep config r Hpf).
Qed.

(** C8 (distinct pairs, distinct slots): [Forward] registers a session only
    for a pair whose namespace and name contain no '/' (client-go refuses
    such path segments, so both lookups fail).  For such a pair, a
    [registerForwarding] or [StopForwarding] call on any other pair leaves
    its entry in place and does not close its stop channel. *)
Theorem registry_keys_separate (env : Env) (Hval : slash_lookups_fail env)
    (w : World) (ns1 n1 : string) (o : reg_op)
    (Hinv : Inv w) (H1 : in_cutset "/"%char ns1 = false) (H1' : in_cutset "/"%char n1 = false)
    (Hne : (ns1, n1) <> op_pair o) :
  (forall ns n fp tp path lvl ctx w0 w0',
     Forward env ns n fp tp path lvl ctx w0 = Done None w0' ->
     in_cutset "/"%char ns = false /\ in_cutset "/"%char n = false) /\
  exists w', run_op o w = Done tt w' /\
    activeForwards w' !! forward_key ns1 n1 = activeForwards w !! forward_key ns1 n1 /\
    (forall h, activeForwards w !! forward_key ns1 n1 = Some h -> h ∉ closed_log w').
Proof.
  split; [intros ns n fp tp path lvl ctx w0 w0'; apply (forward_registers_plain env Hval)|].
  pose proof Hinv as HI. destruct Hinv as (Hnd & Hopen & Hinj).
  destruct o as [ns2 n2 c | ns2 n2]; simpl in Hne; simpl run_op.
  all: assert (Hk : forward_key ns1 n1 <> forward_key ns2 n2)
         by (intros Hk; destruct (forward_key_inj_r _ _ _ _ H1 H1' (eq_sym Hk)) as [-> ->];
             apply Hne; reflexivity).
  - rewrite registerForwarding_eq by exact HI. eexists. split; [reflexivity|].
    cbn [activeForwards closed_log]. split.
    + apply lookup_insert_ne. congruence.
    + intros h Hh Hin. apply elem_of_app in Hin as [Hin|Hin].
      * destruct (activeForwards w !! forward_key ns2 n2) eqn:E; simpl in Hin; [|set_solver].
        apply list_elem_of_singleton in Hin. subst. exact (Hk (Hinj _ _ _ Hh E)).
      * exact (Hopen _ _ Hh Hin).
  - rewrite StopForwarding_eq by exact HI. eexists. split; [reflexivity|].
    cbn [activeForwards closed_log]. split.
    + apply lookup_delete_ne. congruence.
    + intros h Hh Hin. apply elem_of_app in Hin as [Hin|Hin].
      * destruct (activeForwards w !! forward_key ns2 n2) eqn:E; simpl in Hin; [|set_solver].
        apply list_elem_of_singleton in Hin. subst. exact (Hk (Hinj _ _ _ Hh E)).
      * exact (Hopen _ _ Hh Hin).
Qed.

(** A client-go whose lookups refuse '/' path segments and find everything
    else. *)
Definition env_k8s (host : string) : Env := {|
  env_ClientConfig := fun _ _ => Ok {| Host := host |};
  env_NewForConfig := fun _ => None;
  env_GetService := fun _ ns n =>
    if (in_cutset "/"%char ns || in_cutset "/"%char n)%bool
    then Some (CollabError 2 "invalid resource name: may not contain '/'") else None;
  env_GetPod := fun _ ns n =>
    if (in_cutset "/"%char ns || in_cutset "/"%char n)%bool
    then Some (CollabError 2 "invalid resource name: may not contain '/'") else None;
  env_RoundTripperFor := fun _ => None;
  env_PortforwardNew := fun _ _ => None
|}.

Lemma env_k8s_slash (host : string) : slash_lookups_fail (env_k8s host).
Proof.
  intros config ns n H. cbn [env_GetService env_GetPod env_k8s].
  destruct H as [H|H]; rewrite H; rewrite ?orb_true_r; split; discriminate.
Qed.

(** Two live sessions, [test/web] on channel 0 and [test/db] on channel 1. *)
Definition two_sessions : World :=
  world_of (run_ops [RegOp "test" "web" 0; RegOp "test" "db" 1] initial_world).

Lemma two_sessions_Inv : Inv two_sessions.
Proof.
  assert (Hnd : NoDup (reg_handles [RegOp "test" "web" 0; RegOp "test" "db" 1]))
    by (apply (bool_decide_unpack _); vm_compute; reflexivity).
  assert (Hfr : Forall (fun h => ~ seen initial_world h)
                       (reg_handles [RegOp "test" "web" 0; RegOp "test" "db" 1])).
  { simpl. repeat constructor; intros [Hin | [k Hk]]; cbn in *;
      try (rewrite lookup_empty in Hk; discriminate); inversion Hin. }
  destruct (run_ops_spec _ initial_world Inv_initial Hnd Hfr) as (w & Hrun & Hw).
  unfold two_sessions. rewrite Hrun. exact Hw.
Qed.

Lemma registry_keys_separate_witness :
  slash_lookups_fail (env_k8s "https://1.2.3.4:6443") /\ Inv two_sessions /\
  activeForwards two_sessions !! forward_key "test" "web" = Some 0%nat /\
  exists w', run_op (StopOp "test" "db") two_sessions = Done tt w' /\
    activeForwards w' !! forward_key "test" "web" = activeForwards two_sessions !! forward_key "test" "web" /\
    (forall h, activeForwards two_sessions !! forward_key "test" "web" = Some h -> h ∉ closed_log w').
Proof.
  split; [exact (env_k8s_slash _)|]. split; [exact two_sessions_Inv|]. split; [vm_compute; reflexivity|].
  refine (proj2 (registry_keys_separate (env_k8s "https://1.2.3.4:6443") (env_k8s_slash _)
                   two_sessions "test" "web" (StopOp "test" "db") two_sessions_Inv _ _ _));
    [reflexivity | reflexivity | discriminate].
Defined.
